(** * Task tracker: a shallow embedding of [src/task_tracker/main.py]

    The program keeps a list of task records in one JSON file and offers
    four commands ([add], [list], [done], [delete]).  The embedding keeps
    the structure of the Python code: every function of the source is a
    computation in a small state monad over a [world] made of the data
    file, the clock and the standard output.

    Modelling decisions.
    - A task is the dictionary the program builds in [cmd_add]: the five
      keys [id], [title], [status], [created_at], [done_at].  Python
      integers are unbounded, hence [Z]; [status] is a string because the
      source compares it with the literals "open" and "done"; [done_at] is
      a string or [None].
    - The [json] module and [str.strip] are library code: they are the
      fields of the class [PyLib].  [json_loads] returns [None] where
      [json.load] raises [JSONDecodeError].
    - [Section Program] is the program on the runs in which opening and
      parsing the file raise nothing but [JSONDecodeError].  The other
      exceptions, which [_load] does not catch, are in [Module Raising];
      the two agree on every world whose file raises none of them.
    - [print] appends one line to [stdout]; [_save] also appends what it
      wrote to the ghost log [saved], so that "nothing was saved" can be
      stated. *)

From Stdlib Require Import ZArith List String Ascii Bool Lia Sorted.
From Stdlib Require Import DecimalString DecimalZ.
From Stdlib Require Import Permutation.
Import ListNotations.

Local Open Scope string_scope.
Local Open Scope list_scope.
Local Open Scope Z_scope.

(** ** Data model *)

Record task := mkTask {
  id : Z;
  title : string;
  status : string;
  created_at : string;
  done_at : option string
}.

(** What [json.load] can hand back to [_load]: a list (of task records),
    or some other well-formed value. *)
Inductive json_data :=
| JList (data : list task)
| JOther.

Class PyLib := {
  json_loads : string -> option json_data;
  json_dumps : list task -> string;
  strip : string -> string
}.

Record world := mkWorld {
  file : option string;
  clock : string;
  stdout : list string;
  saved : list string
}.

(** ** The state monad of the program *)

Definition M (A : Type) : Type := world -> A * world.

Definition ret {A} (a : A) : M A := fun w => (a, w).

Definition bind {A B} (m : M A) (k : A -> M B) : M B :=
  fun w => let (a, w') := m w in k a w'.

Notation "x <- m ;; k" := (bind m (fun x => k))
  (at level 61, m at next level, right associativity).
Notation "m ;;; k" := (bind m (fun _ => k))
  (at level 61, right associativity).

Definition eval {A} (m : M A) (w : world) : A := fst (m w).
Definition exec {A} (m : M A) (w : world) : world := snd (m w).

Definition print (line : string) : M unit :=
  fun w => (tt, mkWorld (file w) (clock w) (stdout w ++ [line]) (saved w)).

Fixpoint for_each {A} (l : list A) (body : A -> M unit) : M unit :=
  match l with
  | [] => ret tt
  | x :: rest => body x ;;; for_each rest body
  end.

(** ** Text formatting: [str(n)] and the format spec [:>3] *)

Definition str (n : Z) : string := NilZero.string_of_int (Z.to_int n).

Fixpoint spaces (n : nat) : string :=
  match n with
  | O => EmptyString
  | S k => String " " (spaces k)
  end.

Definition rjust (width : nat) (s : string) : string :=
  (spaces (width - String.length s) ++ s)%string.

(** ** The functions of [main.py] *)

Section Program.
Context {lib : PyLib}.

Definition _now_iso : M string := fun w => (clock w, w).

(** Lines 14-22, on the runs in which opening and parsing the file raise
    nothing but [JSONDecodeError]; [Raising._load] below has the
    exceptions that the handler lets through. *)
Definition _load : M (list task) :=
  fun w =>
    match file w with
    | None => ([], w)
    | Some text =>
        match json_loads text with
        | Some (JList data) => (data, w)
        | Some JOther => ([], w)
        | None => ([], w)
        end
    end.

Definition _save (tasks : list task) : M unit :=
  fun w =>
    (tt, mkWorld (Some (json_dumps tasks)) (clock w) (stdout w)
                 (saved w ++ [json_dumps tasks])).

(** [max(xs, default=d)] *)
Definition max_default (xs : list Z) (d : Z) : Z :=
  match xs with
  | [] => d
  | x :: rest => fold_left Z.max rest x
  end.

Definition _next_id (tasks : list task) : Z :=
  max_default (map id tasks) 0 + 1.

Definition msg_added (t : task) : string :=
  ("✅ added #" ++ str (id t) ++ ": " ++ title t)%string.

Definition cmd_add (arg_title : string) : M unit :=
  tasks <- _load ;;
  now <- _now_iso ;;
  let new_task := mkTask (_next_id tasks) (strip arg_title) "open" now None in
  let tasks := tasks ++ [new_task] in
  _save tasks ;;;
  print (msg_added new_task).

Definition list_view (arg_all arg_done : bool) (tasks : list task) : list task :=
  if arg_all then tasks
  else if arg_done then filter (fun t => status t =? "done")%string tasks
  else filter (fun t => status t =? "open")%string tasks.

Definition msg_no_tasks : string := "🟡 no tasks to show.".

Definition task_line (t : task) : string :=
  ((if (status t =? "done")%string then "✅" else "📝")
     ++ " #" ++ rjust 3 (str (id t)) ++ "  " ++ title t)%string.

Definition cmd_list (arg_all arg_done : bool) : M unit :=
  tasks <- _load ;;
  let view := list_view arg_all arg_done tasks in
  match view with
  | [] => print msg_no_tasks
  | _ :: _ => for_each view (fun t => print (task_line t))
  end.

Definition msg_already_done (tid : Z) : string :=
  ("ℹ️ task #" ++ str tid ++ " already done.")%string.

Definition msg_completed (tid : Z) (t : task) : string :=
  ("✅ completed #" ++ str tid ++ ": " ++ title t)%string.

Definition msg_not_found (tid : Z) : string :=
  ("❌ no task with id #" ++ str tid ++ " found.")%string.

(** [t["status"] = "done"; t["done_at"] = now] on the dictionary [t]. *)
Definition mark_done (now : string) (t : task) : task :=
  mkTask (id t) (title t) "done" (created_at t) (Some now).

(** The [for t in tasks] loop of [cmd_done].  [seen] holds the tasks the
    loop has passed, [todo] those still to visit; the list object that
    [_save] receives is [seen ++ t :: rest] with [t] updated in place. *)
Fixpoint done_loop (tid : Z) (seen todo : list task) : M unit :=
  match todo with
  | [] => print (msg_not_found tid)
  | t :: rest =>
      if id t =? tid then
        if (status t =? "done")%string then
          print (msg_already_done tid)
        else
          now <- _now_iso ;;
          let t' := mark_done now t in
          _save (seen ++ t' :: rest) ;;;
          print (msg_completed tid t')
      else done_loop tid (seen ++ [t]) rest
  end.

Definition cmd_done (arg_id : Z) : M unit :=
  tasks <- _load ;;
  done_loop arg_id [] tasks.

Definition msg_deleted (tid : Z) : string :=
  ("🗑️ deleted task #" ++ str tid)%string.

Definition cmd_delete (arg_id : Z) : M unit :=
  tasks <- _load ;;
  let before := List.length tasks in
  let tasks := filter (fun t => negb (id t =? arg_id)) tasks in
  if (List.length tasks =? before)%nat then
    print (msg_not_found arg_id)
  else
    _save tasks ;;;
    print (msg_deleted arg_id).

(** The parsed command line: the sub-command with its arguments. *)
Inductive command :=
| Add (arg_title : string)
| List (arg_all arg_done : bool)
| Done (arg_id : Z)
| Delete (arg_id : Z).

Definition func (args : command) : M unit :=
  match args with
  | Add arg_title => cmd_add arg_title
  | List arg_all arg_done => cmd_list arg_all arg_done
  | Done arg_id => cmd_done arg_id
  | Delete arg_id => cmd_delete arg_id
  end.

(** [main] after [parse_args]; creating the parent directory has no effect
    on the content of the data file. *)
Definition main (args : command) : M unit :=
  _load ;;;
  func args.

End Program.

(** ** A reference implementation of the library interface

    [RefLib] prints a task list the way [json.dump(tasks, f,
    ensure_ascii=False, indent=2)] lays it out and reads that text back.
    It is the instance on which the commands are run on concrete worlds.
    The reader accepts JSON white space between tokens; of the well-formed
    texts that are not arrays it recognises the scalars and the empty
    object. *)

Module RefLib.

Local Open Scope string_scope.

Definition dquote : ascii := "034"%char.
Definition bslash : ascii := "092"%char.
Definition newline : ascii := "010"%char.

(** *** Writer *)

Definition hex_digit (n : N) : ascii :=
  match n with
  | 0 => "0" | 1 => "1" | 2 => "2" | 3 => "3" | 4 => "4" | 5 => "5"
  | 6 => "6" | 7 => "7" | 8 => "8" | 9 => "9" | 10 => "a" | 11 => "b"
  | 12 => "c" | 13 => "d" | 14 => "e" | _ => "f"
  end%N%char.

(** The escapes of [json.encoder.encode_basestring]. *)
Definition escape_char (c : ascii) : string :=
  let n := N_of_ascii c in
  if (c =? bslash)%char then String bslash (String bslash EmptyString)
  else if (c =? dquote)%char then String bslash (String dquote EmptyString)
  else if (c =? "008")%char then String bslash "b"
  else if (c =? "012")%char then String bslash "f"
  else if (c =? "010")%char then String bslash "n"
  else if (c =? "013")%char then String bslash "r"
  else if (c =? "009")%char then String bslash "t"
  else if (n <? 32)%N then
    String bslash
      (String "u" (String "0" (String "0"
         (String (hex_digit (n / 16)) (String (hex_digit (n mod 16)) EmptyString)))))
  else String c EmptyString.

Fixpoint escape (s : string) : string :=
  match s with
  | EmptyString => EmptyString
  | String c rest => escape_char c ++ escape rest
  end.

Definition json_string (s : string) : string :=
  String dquote (escape s ++ String dquote EmptyString).

Definition json_opt_string (o : option string) : string :=
  match o with
  | None => "null"
  | Some s => json_string s
  end.

Definition indent (n : nat) : string := String newline (spaces n).

Definition dump_task (t : task) : string :=
  "{" ++ indent 4 ++ json_string "id" ++ ": " ++ str (id t)
  ++ "," ++ indent 4 ++ json_string "title" ++ ": " ++ json_string (title t)
  ++ "," ++ indent 4 ++ json_string "status" ++ ": " ++ json_string (status t)
  ++ "," ++ indent 4 ++ json_string "created_at" ++ ": " ++ json_string (created_at t)
  ++ "," ++ indent 4 ++ json_string "done_at" ++ ": " ++ json_opt_string (done_at t)
  ++ indent 2 ++ "}".

Fixpoint dump_more (l : list task) : string :=
  match l with
  | [] => indent 0 ++ "]"
  | t :: rest => "," ++ indent 2 ++ dump_task t ++ dump_more rest
  end.

Definition dumps (l : list task) : string :=
  match l with
  | [] => "[]"
  | t :: rest => "[" ++ indent 2 ++ dump_task t ++ dump_more rest
  end.

(** *** Reader *)

Definition is_ws (c : ascii) : bool :=
  ((c =? " ") || (c =? "009") || (c =? "010") || (c =? "013"))%char.

Fixpoint skip_ws (s : string) : string :=
  match s with
  | EmptyString => EmptyString
  | String c rest => if is_ws c then skip_ws rest else s
  end.

Definition parser (A : Type) : Type := string -> option (A * string).

Definition pbind {A B} (p : parser A) (k : A -> parser B) : parser B :=
  fun s => match p s with
           | Some (a, rest) => k a rest
           | None => None
           end.

Definition pret {A} (a : A) : parser A := fun s => Some (a, s).

Notation "x <~ p ;; k" := (pbind p (fun x => k))
  (at level 61, p at next level, right associativity).
Notation "p ~> k" := (pbind p (fun _ => k))
  (at level 61, right associativity).

(** [expect lit] consumes [lit] exactly. *)
Fixpoint expect (lit : string) : parser unit :=
  fun s =>
    match lit with
    | EmptyString => Some (tt, s)
    | String c lit' =>
        match s with
        | String d rest => if (c =? d)%char then expect lit' rest else None
        | EmptyString => None
        end
    end.

(** A token: optional white space, then the literal. *)
Definition tok (lit : string) : parser unit := fun s => expect lit (skip_ws s).

Definition hex_val (c : ascii) : option N :=
  let n := N_of_ascii c in
  if ((48 <=? n) && (n <=? 57))%N then Some (n - 48)%N
  else if ((97 <=? n) && (n <=? 102))%N then Some (n - 87)%N
  else if ((65 <=? n) && (n <=? 70))%N then Some (n - 55)%N
  else None.

Definition hex4 (a b c d : ascii) : option ascii :=
  match hex_val a, hex_val b, hex_val c, hex_val d with
  | Some x, Some y, Some z, Some u =>
      let n := (((x * 16 + y) * 16 + z) * 16 + u)%N in
      if (n <? 128)%N then Some (ascii_of_N n) else None
  | _, _, _, _ => None
  end.

Definition consc (c : ascii) (r : option (string * string)) : option (string * string) :=
  match r with
  | Some (s, rest) => Some (String c s, rest)
  | None => None
  end.

(** The characters of a string literal up to and including the closing
    quote. *)
Fixpoint string_body (s : string) : option (string * string) :=
  match s with
  | EmptyString => None
  | String c rest =>
      if (c =? dquote)%char then Some (EmptyString, rest)
      else if (c =? bslash)%char then
        match rest with
        | String e rest1 =>
            if (e =? dquote)%char then consc dquote (string_body rest1)
            else if (e =? bslash)%char then consc bslash (string_body rest1)
            else if (e =? "/")%char then consc "/"%char (string_body rest1)
            else if (e =? "b")%char then consc "008"%char (string_body rest1)
            else if (e =? "f")%char then consc "012"%char (string_body rest1)
            else if (e =? "n")%char then consc "010"%char (string_body rest1)
            else if (e =? "r")%char then consc "013"%char (string_body rest1)
            else if (e =? "t")%char then consc "009"%char (string_body rest1)
            else if (e =? "u")%char then
              match rest1 with
              | String h1 (String h2 (String h3 (String h4 rest2))) =>
                  match hex4 h1 h2 h3 h4 with
                  | Some d => consc d (string_body rest2)
                  | None => None
                  end
              | _ => None
              end
            else None
        | EmptyString => None
        end
      else if (N_of_ascii c <? 32)%N then None
      else consc c (string_body rest)
  end.

Definition p_string : parser string :=
  fun s =>
    match skip_ws s with
    | String c rest => if (c =? dquote)%char then string_body rest else None
    | EmptyString => None
    end.

Definition is_int_char (c : ascii) : bool :=
  let n := N_of_ascii c in
  ((c =? "-")%char || ((48 <=? n) && (n <=? 57))%N)%bool.

Fixpoint span_int (s : string) : string * string :=
  match s with
  | EmptyString => (EmptyString, EmptyString)
  | String c rest =>
      if is_int_char c then
        let (digits, rest') := span_int rest in (String c digits, rest')
      else (EmptyString, s)
  end.

(** An integer literal in canonical form (the form [str] prints). *)
Definition p_int : parser Z :=
  fun s =>
    let (digits, rest) := span_int (skip_ws s) in
    match NilZero.int_of_string digits with
    | Some d =>
        let n := Z.of_int d in
        if (str n =? digits)%string then Some (n, rest) else None
    | None => None
    end.

Definition p_opt_string : parser (option string) :=
  fun s =>
    match tok "null" s with
    | Some (_, rest) => Some (None, rest)
    | None => (x <~ p_string ;; pret (Some x)) s
    end.

Definition p_key (k : string) : parser unit := tok (json_string k).

Definition p_task : parser task :=
  tok "{" ~> p_key "id" ~> tok ":" ~>
  i <~ p_int ;;
  tok "," ~> p_key "title" ~> tok ":" ~>
  ti <~ p_string ;;
  tok "," ~> p_key "status" ~> tok ":" ~>
  st <~ p_string ;;
  tok "," ~> p_key "created_at" ~> tok ":" ~>
  cr <~ p_string ;;
  tok "," ~> p_key "done_at" ~> tok ":" ~>
  dn <~ p_opt_string ;;
  tok "}" ~>
  pret (mkTask i ti st cr dn).

(** The elements after the first one, up to the closing bracket. *)
Fixpoint p_more (fuel : nat) : parser (list task) :=
  fun s =>
    match fuel with
    | O => None
    | S fuel' =>
        match skip_ws s with
        | String c rest =>
            if (c =? "]")%char then Some ([], rest)
            else if (c =? ",")%char then
              (t <~ p_task ;; l <~ p_more fuel' ;; pret (t :: l)) rest
            else None
        | EmptyString => None
        end
    end.

(** An array, after its opening bracket. *)
Definition p_array (fuel : nat) : parser (list task) :=
  fun s =>
    match tok "]" s with
    | Some (_, rest) => Some ([], rest)
    | None => (t <~ p_task ;; l <~ p_more fuel ;; pret (t :: l)) s
    end.

Definition orelse {A} (p q : parser A) : parser A :=
  fun s => match p s with
           | Some r => Some r
           | None => q s
           end.

Definition p_scalar : parser unit :=
  orelse (tok "null")
    (orelse (tok "true")
       (orelse (tok "false")
          (orelse (p_string ~> pret tt)
             (orelse (p_int ~> pret tt)
                (tok "{" ~> tok "}"))))).

Definition at_end (s : string) : bool :=
  match skip_ws s with
  | EmptyString => true
  | String _ _ => false
  end.

Definition loads (s : string) : option json_data :=
  match tok "[" s with
  | Some (_, rest) =>
      match p_array (String.length rest) rest with
      | Some (l, rest') => if at_end rest' then Some (JList l) else None
      | None => None
      end
  | None =>
      match p_scalar s with
      | Some (_, rest') => if at_end rest' then Some JOther else None
      | None => None
      end
  end.

(** [str.strip()] on ASCII text. *)
Definition isspace (c : ascii) : bool :=
  let n := N_of_ascii c in
  (((9 <=? n) && (n <=? 13)) || ((28 <=? n) && (n <=? 32)))%N.

Fixpoint lstrip (s : string) : string :=
  match s with
  | EmptyString => EmptyString
  | String c rest => if isspace c then lstrip rest else s
  end.

Fixpoint rstrip (s : string) : string :=
  match s with
  | EmptyString => EmptyString
  | String c rest =>
      match rstrip rest with
      | EmptyString => if isspace c then EmptyString else String c EmptyString
      | String _ _ as rest' => String c rest'
      end
  end.

Definition strip (s : string) : string := rstrip (lstrip s).

End RefLib.

#[export] Instance ref_lib : PyLib := {|
  json_loads := RefLib.loads;
  json_dumps := RefLib.dumps;
  strip := RefLib.strip
|}.


(** ** Runs of the program and the vocabulary of the properties *)

Section Runs.
Context {lib : PyLib}.

(** The contract of the [json] module that the program relies on: a list of
    task records that is written is read back as the same list. *)
Definition json_roundtrip : Prop :=
  forall l : list task, json_loads (json_dumps l) = Some (JList l).

(** The store of a world: what [_load] returns there. *)
Definition store (w : world) : list task := eval _load w.

Definition set_clock (now : string) (w : world) : world :=
  mkWorld (file w) now (stdout w) (saved w).

(** One run of the program, at time [now]. *)
Definition invoke (now : string) (args : command) (w : world) : world :=
  exec (main args) (set_clock now w).

(** The world a command leaves when it saves [tasks] and prints [line]. *)
Definition saved_world (tasks : list task) (line : string) (w : world) : world :=
  mkWorld (Some (json_dumps tasks)) (clock w) (stdout w ++ [line])
          (saved w ++ [json_dumps tasks]).

(** The lines [cmd_list] prints for a view. *)
Definition render (view : list task) : list string :=
  match view with
  | [] => [msg_no_tasks]
  | _ :: _ => map task_line view
  end.

Definition last_id (tasks : list task) : Z := last (map id tasks) 0.

(** For each [add] of a script, in order: the store the command found and
    the id of the task it appended. *)
Fixpoint adds (script : list (string * command)) (w : world)
  : list (list task * Z) :=
  match script with
  | [] => []
  | (now, args) :: rest =>
      let w' := invoke now args w in
      match args with
      | Add _ => (store w, last_id (store w')) :: adds rest w'
      | _ => adds rest w'
      end
  end.

Definition assigned_ids (script : list (string * command)) (w : world) : list Z :=
  map snd (adds script w).

(** No [delete] of the script removes the task that holds the highest id
    of the store it finds. *)
Fixpoint keeps_highest (script : list (string * command)) (w : world) : Prop :=
  match script with
  | [] => True
  | (now, args) :: rest =>
      match args with
      | Delete k => In k (map id (store w)) -> k < max_default (map id (store w)) 0
      | _ => True
      end
      /\ keeps_highest rest (invoke now args w)
  end.

End Runs.

(** The world before the first run: no data file. *)
Definition fresh : world := mkWorld None EmptyString [] [].

(** [Merge l r m]: [m] interleaves [l] and [r], keeping the order of each. *)
Inductive Merge {A : Type} : list A -> list A -> list A -> Prop :=
| Merge_nil : Merge [] [] []
| Merge_left x l r m : Merge l r m -> Merge (x :: l) r (x :: m)
| Merge_right x l r m : Merge l r m -> Merge l (x :: r) (x :: m).

(** The invariants of the store (section 3 of the specification). *)
Definition unique_ids (tasks : list task) : Prop := NoDup (map id tasks).

Definition valid_status (t : task) : Prop :=
  status t = "open"%string \/ status t = "done"%string.

Definition task_ok (t : task) : Prop :=
  (status t = "done"%string -> done_at t <> None)
  /\ (status t = "open"%string -> done_at t = None).

Definition store_ok (tasks : list task) : Prop := Forall task_ok tasks.

(** The test of the comprehension in [cmd_delete]. *)
Definition keep (k : Z) (t : task) : bool := negb (id t =? k).

(** [m] is the maximum of the non-empty list [xs]. *)
Definition is_max (m : Z) (xs : list Z) : Prop :=
  In m xs /\ forall x, In x xs -> x <= m.

(** ** Concrete worlds, run on the reference library *)

Definition sample : list task :=
  [ mkTask 1 "Buy milk" "done" "2024-05-01T10:00:00" (Some "2024-05-02T09:30:00");
    mkTask 2 "Call Ann" "open" "2024-05-01T10:05:00" None;
    mkTask 3 "Pay rent" "open" "2024-05-03T08:00:00" None ].

Definition sample_world : world :=
  mkWorld (Some (RefLib.dumps sample)) "2024-05-04T12:00:00" [] [].

(** Two adds, the deletion of the task added last, one more add. *)
Definition reuse_script : list (string * command) :=
  [ ("2024-05-01T10:00:00", Add "A");
    ("2024-05-01T10:01:00", Add "B");
    ("2024-05-01T10:02:00", Delete 2);
    ("2024-05-01T10:03:00", Add "C") ].

(** Scenario 4 of the specification: the task deleted is not the last. *)
Definition scenario4 : list (string * command) :=
  [ ("2024-05-01T10:00:00", Add "A");
    ("2024-05-01T10:01:00", Add "B");
    ("2024-05-01T10:02:00", Delete 1);
    ("2024-05-01T10:03:00", Add "C") ].

Definition run {lib : PyLib} (script : list (string * command)) (w : world) : world :=
  fold_left (fun w step => invoke (fst step) (snd step) w) script w.

(** ** Vocabulary of the further properties *)

(** The invariants the data model asks of a store, together: ids positive
    and strictly increasing along the sequence, statuses among the two
    literals, [done_at] set exactly on done tasks. *)
Definition well_formed (tasks : list task) : Prop :=
  StronglySorted Z.lt (map id tasks)
  /\ Forall (fun t => 0 < id t) tasks
  /\ Forall valid_status tasks
  /\ store_ok tasks.

Definition is_add (step : string * command) : Prop :=
  match snd step with
  | Add _ => True
  | _ => False
  end.

(** [n], [n + 1], ..., one per element of [l]. *)
Fixpoint count_from {A : Type} (n : Z) (l : list A) : list Z :=
  match l with
  | [] => []
  | _ :: rest => n :: count_from (n + 1) rest
  end.

(** A data file whose text does not parse. *)
Definition unreadable_world : world :=
  mkWorld (Some "[{ oops") "2024-05-05T00:00:00" [] [].

(** Three adds in a row. *)
Definition three_adds : list (string * command) :=
  [ ("2024-05-05T00:00:00", Add "a");
    ("2024-05-05T00:00:01", Add "b");
    ("2024-05-05T00:00:02", Add "c") ].

(** ** The program with the exceptions that [_load] lets through

    [_load] catches [json.JSONDecodeError] and nothing else (line 21 of
    [main.py]).  Opening the file as UTF-8 text and [json.load] can raise
    other exceptions: [UnicodeDecodeError] on bytes that are not UTF-8,
    [RecursionError] on nesting beyond the recursion limit, [ValueError]
    on an integer literal beyond the digit limit.  [json_load_raises]
    tells, for the content of the file, which of them is raised, if any;
    where it is [None], [json_loads] tells what [json.load] returns, with
    [None] for [JSONDecodeError].

    [Section Program] above is the program on the runs in which none of
    these exceptions is raised.  [Module Raising] is the program with
    them: a command is a computation that returns or raises, and every
    command starts with a load, as in the source.  Nothing after the load
    raises in this model. *)

Inductive exn :=
| UnicodeDecodeError
| RecursionError
| ValueError.

Inductive result (A : Type) : Type :=
| Ok (a : A)
| Raised (e : exn).

Arguments Ok {A} a.
Arguments Raised {A} e.

Class PyRaises := {
  json_load_raises : string -> option exn
}.


Module Raising.
Section Program.
Context {lib : PyLib} {exc : PyRaises}.

Definition R (A : Type) : Type := world -> result A * world.

Definition bind {A B} (m : R A) (k : A -> R B) : R B :=
  fun w =>
    match m w with
    | (Ok a, w') => k a w'
    | (Raised e, w') => (Raised e, w')
    end.

(** A computation that cannot raise. *)
Definition lift {A} (m : M A) : R A :=
  fun w => let (a, w') := m w in (Ok a, w').

Notation "x <-- m ;; k" := (bind m (fun x => k))
  (at level 61, m at next level, right associativity).

Definition _load : R (list task) :=
  fun w =>
    match file w with
    | None => (Ok [], w)
    | Some text =>
        match json_load_raises text with
        | Some e => (Raised e, w)
        | None =>
            match json_loads text with
            | Some (JList data) => (Ok data, w)
            | Some JOther => (Ok [], w)
            | None => (Ok [], w)
            end
        end
    end.

Definition cmd_add (arg_title : string) : R unit :=
  tasks <-- _load ;;
  lift (now <- _now_iso ;;
        let new_task := mkTask (_next_id tasks) (strip arg_title) "open" now None in
        let tasks := tasks ++ [new_task] in
        _save tasks ;;;
        print (msg_added new_task)).

Definition cmd_list (arg_all arg_done : bool) : R unit :=
  tasks <-- _load ;;
  lift (let view := list_view arg_all arg_done tasks in
        match view with
        | [] => print msg_no_tasks
        | _ :: _ => for_each view (fun t => print (task_line t))
        end).

Definition cmd_done (arg_id : Z) : R unit :=
  tasks <-- _load ;;
  lift (done_loop arg_id [] tasks).

Definition cmd_delete (arg_id : Z) : R unit :=
  tasks <-- _load ;;
  lift (let before := List.length tasks in
        let tasks := filter (fun t => negb (id t =? arg_id)) tasks in
        if (List.length tasks =? before)%nat then
          print (msg_not_found arg_id)
        else
          _save tasks ;;;
          print (msg_deleted arg_id)).

Definition func (args : command) : R unit :=
  match args with
  | Add arg_title => cmd_add arg_title
  | List arg_all arg_done => cmd_list arg_all arg_done
  | Done arg_id => cmd_done arg_id
  | Delete arg_id => cmd_delete arg_id
  end.

Definition main (args : command) : R unit :=
  _ <-- _load ;;
  func args.

End Program.
End Raising.

(** Decoding on the reference library: strict UTF-8, as the codec of
    [open(..., encoding="utf-8")] checks it (no overlong form, no
    surrogate, nothing above U+10FFFF).  The reference reader has no
    limit of depth or of digits. *)
Definition in_range (lo hi : N) (c : ascii) : bool :=
  let n := N_of_ascii c in ((lo <=? n) && (n <=? hi))%N.

Definition second_of_three (c c1 : ascii) : bool :=
  if in_range 224 224 c then in_range 160 191 c1
  else if in_range 237 237 c then in_range 128 159 c1
  else in_range 128 191 c1.

Definition second_of_four (c c1 : ascii) : bool :=
  if in_range 240 240 c then in_range 144 191 c1
  else if in_range 244 244 c then in_range 128 143 c1
  else in_range 128 191 c1.

Fixpoint utf8_valid (s : string) : bool :=
  match s with
  | EmptyString => true
  | String c rest =>
      if in_range 0 127 c then utf8_valid rest
      else if in_range 194 223 c then
        match rest with
        | String c1 rest1 => in_range 128 191 c1 && utf8_valid rest1
        | EmptyString => false
        end
      else if in_range 224 239 c then
        match rest with
        | String c1 (String c2 rest2) =>
            second_of_three c c1 && in_range 128 191 c2 && utf8_valid rest2
        | _ => false
        end
      else if in_range 240 244 c then
        match rest with
        | String c1 (String c2 (String c3 rest3)) =>
            second_of_four c c1 && in_range 128 191 c2 && in_range 128 191 c3
            && utf8_valid rest3
        | _ => false
        end
      else false
  end.

#[export] Instance ref_raises : PyRaises := {|
  json_load_raises :=
    fun text => if utf8_valid text then None else Some UnicodeDecodeError
|}.


(** ** The reference library reads back what it writes *)

Module RefLibFacts.
Import RefLib.

Local Open Scope string_scope.

Lemma append_assoc (a b c : string) : (a ++ b) ++ c = a ++ (b ++ c).
Proof. induction a as [| x a IH]; simpl; [reflexivity | now rewrite IH]. Qed.

Lemma append_length (a b : string) :
  String.length (a ++ b) = (String.length a + String.length b)%nat.
Proof. induction a as [| x a IH]; simpl; [reflexivity | now rewrite IH]. Qed.

Lemma string_body_escape_char (c : ascii) (body tail : string) :
  string_body (escape body ++ String dquote tail) = Some (body, tail) ->
  string_body (escape_char c ++ escape body ++ String dquote tail)
  = Some (String c body, tail).
Proof.
  intros IH.
  destruct c as [[] [] [] [] [] [] [] []]; cbn; rewrite IH; reflexivity.
Qed.

Lemma string_body_escape (s rest : string) :
  string_body (escape s ++ String dquote rest) = Some (s, rest).
Proof.
  induction s as [| c s IH].
  - reflexivity.
  - simpl escape. rewrite append_assoc.
    now apply string_body_escape_char.
Qed.

Lemma p_string_json (s rest : string) :
  p_string (json_string s ++ rest) = Some (s, rest).
Proof.
  unfold p_string, json_string. cbn. rewrite append_assoc.
  apply string_body_escape.
Qed.

(** *** Integers *)

Lemma span_int_uint (u : Decimal.uint) (r : string) :
  span_int (NilEmpty.string_of_uint u ++ r)
  = (NilEmpty.string_of_uint u ++ fst (span_int r), snd (span_int r)).
Proof.
  induction u; simpl; try rewrite IHu; try reflexivity.
  now destruct (span_int r).
Qed.

Lemma span_int_str (n : Z) (c : ascii) (r : string) :
  is_int_char c = false ->
  span_int (str n ++ String c r) = (str n, String c r).
Proof.
  intros Hc.
  assert (Hr : span_int (String c r) = (EmptyString, String c r))
    by (simpl; now rewrite Hc).
  assert (He : forall s, s ++ EmptyString = s)
    by (induction s; simpl; congruence).
  assert (Hu : forall u, span_int (NilZero.string_of_uint u ++ String c r)
                         = (NilZero.string_of_uint u, String c r)).
  { intros u. destruct u; try (unfold NilZero.string_of_uint;
      rewrite span_int_uint, Hr; simpl fst; simpl snd; now rewrite He).
    simpl. now rewrite Hc. }
  unfold str. destruct (Z.to_int n) as [u | u]; simpl.
  - apply Hu.
  - now rewrite Hu.
Qed.

Lemma skip_ws_str (n : Z) (r : string) : skip_ws (str n ++ r) = str n ++ r.
Proof.
  unfold str. destruct (Z.to_int n) as [u | u]; [| reflexivity].
  destruct u; reflexivity.
Qed.

Lemma int_of_string_str (n : Z) :
  NilZero.int_of_string (str n) = Some (Z.to_int n).
Proof.
  unfold str. apply NilZero.isi; intros E;
    pose proof (DecimalZ.of_to n) as H; rewrite E in H; simpl in H;
    subst n; discriminate E.
Qed.

Lemma p_int_str (n : Z) (c : ascii) (r : string) :
  is_int_char c = false ->
  p_int (str n ++ String c r) = Some (n, String c r).
Proof.
  intros Hc. unfold p_int.
  rewrite skip_ws_str, (span_int_str n c r Hc), int_of_string_str.
  rewrite DecimalZ.of_to, String.eqb_refl. reflexivity.
Qed.

(** *** Task objects and arrays *)

Lemma p_int_field (n : Z) (c : ascii) (r : string) :
  is_int_char c = false ->
  p_int (String " " (str n ++ String c r)) = Some (n, String c r).
Proof. intros Hc. now rewrite <- (p_int_str n c r Hc). Qed.

Lemma p_string_field (s r : string) :
  p_string (String " " (String dquote ((escape s ++ String dquote EmptyString) ++ r)))
  = Some (s, r).
Proof. now rewrite <- (p_string_json s r). Qed.

Ltac field :=
  unfold pbind at 1;
  first [ rewrite p_int_field by reflexivity | rewrite p_string_field ];
  cbn.

Lemma p_task_dump (t : task) (rest : string) :
  p_task (dump_task t ++ rest) = Some (t, rest).
Proof.
  destruct t as [i ti st cr dn].
  unfold dump_task, p_task; cbn [id title status created_at done_at].
  repeat rewrite append_assoc.
  unfold pbind at 1; cbn.
  do 4 field.
  destruct dn as [d |]; cbn.
  - unfold pbind at 1, p_opt_string; cbn.
    unfold pbind at 1. rewrite p_string_field. reflexivity.
  - reflexivity.
Qed.

Lemma p_task_indent (s : string) : p_task (indent 2 ++ s) = p_task s.
Proof. reflexivity. Qed.

Lemma dump_more_cons (t : task) (l : list task) :
  dump_more (t :: l) = String "," (indent 2 ++ dump_task t ++ dump_more l).
Proof. reflexivity. Qed.

Lemma dumps_cons (t : task) (l : list task) :
  dumps (t :: l) = String "[" (indent 2 ++ dump_task t ++ dump_more l).
Proof. reflexivity. Qed.

Lemma p_more_comma (fuel : nat) (s : string) :
  p_more (S fuel) (String "," (indent 2 ++ s))
  = (t <~ p_task ;; l <~ p_more fuel ;; pret (t :: l)) s.
Proof. reflexivity. Qed.

Lemma p_more_dump (l : list task) :
  forall (fuel : nat) (rest : string),
    (List.length l < fuel)%nat ->
    p_more fuel (dump_more l ++ rest) = Some (l, rest).
Proof.
  induction l as [| t l IH]; intros fuel rest Hfuel;
    (destruct fuel as [| fuel]; [inversion Hfuel |]).
  - reflexivity.
  - rewrite dump_more_cons.
    change (String "," (indent 2 ++ dump_task t ++ dump_more l) ++ rest)
      with (String "," (indent 2 ++ ((dump_task t ++ dump_more l) ++ rest))).
    rewrite p_more_comma, append_assoc.
    unfold pbind at 1. rewrite p_task_dump.
    unfold pbind at 1. rewrite IH by (simpl in Hfuel; lia).
    reflexivity.
Qed.

Lemma length_dump_more (l : list task) :
  (List.length l < String.length (dump_more l))%nat.
Proof.
  induction l as [| t l IH]; [simpl; lia |].
  rewrite dump_more_cons. cbn [String.length List.length].
  rewrite !append_length. lia.
Qed.

Lemma append_empty (s : string) : s ++ EmptyString = s.
Proof. induction s as [| c s IH]; simpl; congruence. Qed.

Lemma p_array_dump (t : task) (l : list task) (fuel : nat) :
  (List.length l < fuel)%nat ->
  p_array fuel (indent 2 ++ dump_task t ++ dump_more l)
  = Some (t :: l, EmptyString).
Proof.
  intros Hfuel. unfold p_array.
  change (tok "]" (indent 2 ++ dump_task t ++ dump_more l)) with (@None (unit * string)).
  cbv beta iota. unfold pbind at 1.
  rewrite p_task_indent, p_task_dump.
  unfold pbind at 1.
  rewrite <- (append_empty (dump_more l)), p_more_dump by exact Hfuel.
  reflexivity.
Qed.

Theorem loads_dumps (l : list task) : loads (dumps l) = Some (JList l).
Proof.
  destruct l as [| t l]; [reflexivity |].
  rewrite dumps_cons. unfold loads.
  change (tok "[" (String "[" (indent 2 ++ dump_task t ++ dump_more l)))
    with (Some (tt, indent 2 ++ dump_task t ++ dump_more l)).
  cbv beta iota.
  rewrite p_array_dump; [reflexivity |].
  rewrite !append_length. pose proof (length_dump_more l). lia.
Qed.

End RefLibFacts.

(** ** Facts about the monad and the primitive operations *)

Section Basics.
Context {lib : PyLib}.

Lemma load_run (w : world) : _load w = (store w, w).
Proof.
  unfold store, eval, _load.
  destruct (file w) as [text |]; [| reflexivity].
  destruct (json_loads text) as [[data |] |]; reflexivity.
Qed.

Lemma bind_load {B} (k : list task -> M B) (w : world) :
  bind _load k w = k (store w) w.
Proof. unfold bind. now rewrite load_run. Qed.

Lemma exec_main (args : command) (w : world) :
  exec (main args) w = exec (func args) w.
Proof. unfold exec, main. now rewrite bind_load. Qed.

Lemma store_file (w1 w2 : world) : file w1 = file w2 -> store w1 = store w2.
Proof.
  intros E. unfold store, eval, _load. rewrite E.
  destruct (file w2) as [text |]; [| reflexivity].
  destruct (json_loads text) as [[data |] |]; reflexivity.
Qed.

Lemma store_print (line : string) (w : world) :
  store (exec (print line) w) = store w.
Proof. now apply store_file. Qed.

Lemma store_saved (tasks : list task) (w : world) :
  json_roundtrip -> store (exec (_save tasks) w) = tasks.
Proof.
  intros RT. unfold store, eval, exec, _save, _load. simpl.
  now rewrite RT.
Qed.

Lemma store_saved_world (tasks : list task) (line : string) (w : world) :
  json_roundtrip -> store (saved_world tasks line w) = tasks.
Proof.
  intros RT. unfold store, eval, saved_world, _load. simpl.
  now rewrite RT.
Qed.

Lemma cmd_add_run (arg_title : string) (w : world) :
  let new_task :=
    mkTask (_next_id (store w)) (strip arg_title) "open" (clock w) None in
  exec (cmd_add arg_title) w
  = saved_world (store w ++ [new_task]) (msg_added new_task) w.
Proof. unfold exec, cmd_add. rewrite bind_load. reflexivity. Qed.

Lemma cmd_delete_run (arg_id : Z) (w : world) :
  let kept := filter (fun t => negb (id t =? arg_id)) (store w) in
  exec (cmd_delete arg_id) w
  = if (List.length kept =? List.length (store w))%nat
    then exec (print (msg_not_found arg_id)) w
    else saved_world kept (msg_deleted arg_id) w.
Proof.
  unfold exec, cmd_delete. rewrite bind_load. cbv zeta.
  destruct (List.length _ =? List.length _)%nat; reflexivity.
Qed.

End Basics.

(** ** Next-ID allocation *)

Section NextId.

Lemma fold_max_ge_init (l : list Z) (x : Z) : x <= fold_left Z.max l x.
Proof.
  revert x. induction l as [| y l IH]; intros x; simpl; [lia |].
  specialize (IH (Z.max x y)). lia.
Qed.

Lemma fold_max_ge_elem (l : list Z) (x y : Z) :
  In y l -> y <= fold_left Z.max l x.
Proof.
  revert x. induction l as [| z l IH]; intros x Hin; simpl in *; [contradiction |].
  destruct Hin as [-> | Hin].
  - pose proof (fold_max_ge_init l (Z.max x y)). lia.
  - now apply IH.
Qed.

Lemma fold_max_in (l : list Z) (x : Z) :
  fold_left Z.max l x = x \/ In (fold_left Z.max l x) l.
Proof.
  revert x. induction l as [| y l IH]; intros x; simpl; [now left |].
  destruct (IH (Z.max x y)) as [E | Hin]; [| now right; right].
  rewrite E. destruct (Z.max_spec x y) as [[_ ->] | [_ ->]]; auto.
Qed.

Lemma max_default_is_max (x : Z) (l : list Z) (d : Z) :
  is_max (max_default (x :: l) d) (x :: l).
Proof.
  unfold is_max, max_default. split.
  - destruct (fold_max_in l x) as [-> | Hin]; [now left | now right].
  - intros y [<- | Hin]; [apply fold_max_ge_init | now apply fold_max_ge_elem].
Qed.

Lemma is_max_unique (m m' : Z) (xs : list Z) :
  is_max m xs -> is_max m' xs -> m = m'.
Proof.
  intros [Hin Hub] [Hin' Hub'].
  specialize (Hub _ Hin'). specialize (Hub' _ Hin). lia.
Qed.

Lemma max_default_eq (m : Z) (xs : list Z) (d : Z) :
  is_max m xs -> max_default xs d = m.
Proof.
  intros Hm. destruct xs as [| x l]; [destruct Hm as [[] _] |].
  eapply is_max_unique; [apply max_default_is_max | exact Hm].
Qed.

Lemma next_id_gt (tasks : list task) (t : task) :
  In t tasks -> id t < _next_id tasks.
Proof.
  intros Hin. unfold _next_id.
  destruct tasks as [| t0 rest]; [contradiction |].
  destruct (max_default_is_max (id t0) (map id rest) 0) as [_ Hub].
  specialize (Hub (id t) (in_map id _ _ Hin)).
  change (map id (t0 :: rest)) with (id t0 :: map id rest). lia.
Qed.

(** C6: Next-ID allocation returns 1 on the empty sequence and one more
    than the maximum of the existing ids otherwise. *)
Theorem next_id_spec (tasks : list task) :
  match tasks with
  | [] => _next_id tasks = 1
  | _ :: _ => exists m, is_max m (map id tasks) /\ _next_id tasks = 1 + m
  end.
Proof.
  destruct tasks as [| t rest]; [reflexivity |].
  exists (max_default (map id (t :: rest)) 0). split.
  - apply max_default_is_max.
  - unfold _next_id. lia.
Qed.

(** C10: whatever integers the ids are (zero and negative ones included),
    the allocated id is strictly greater than every id of the list, hence
    equal to none of them; it need not be positive: on ids that are all
    negative it is at most zero. *)
Theorem next_id_above_all_ids :
  forall tasks : list task,
    Forall (fun t => id t < _next_id tasks) tasks
    /\ ~ In (_next_id tasks) (map id tasks)
    /\ exists negatives : list task,
         negatives <> []
         /\ Forall (fun t => id t < 0) negatives
         /\ _next_id negatives <= 0.
Proof.
  intros tasks. split; [| split].
  - apply Forall_forall. intros t Hin. now apply next_id_gt.
  - intros Hin. apply in_map_iff in Hin. destruct Hin as [t [E Hin]].
    pose proof (next_id_gt tasks t Hin). lia.
  - exists [mkTask (-5) "a" "open" "t" None; mkTask (-1) "b" "open" "t" None].
    split; [discriminate |]. split.
    + repeat constructor.
    + vm_compute. discriminate.
Qed.

End NextId.

(** ** The [done] command *)

Section DoneCommand.
Context {lib : PyLib}.

Lemma done_loop_not_found (tid : Z) (todo seen : list task) (w : world) :
  (forall t, In t todo -> id t <> tid) ->
  exec (done_loop tid seen todo) w = exec (print (msg_not_found tid)) w.
Proof.
  revert seen. induction todo as [| t rest IH]; intros seen Hno; [reflexivity |].
  simpl done_loop.
  destruct (Z.eqb_spec (id t) tid) as [E | _].
  - exfalso. apply (Hno t); [now left | exact E].
  - apply IH. intros x Hx. apply Hno. now right.
Qed.

Lemma done_loop_found (tid : Z) (l1 l2 seen : list task) (t : task) (w : world) :
  (forall x, In x l1 -> id x <> tid) ->
  id t = tid ->
  exec (done_loop tid seen (l1 ++ t :: l2)) w
  = if (status t =? "done")%string
    then exec (print (msg_already_done tid)) w
    else saved_world (seen ++ l1 ++ mark_done (clock w) t :: l2)
                     (msg_completed tid t) w.
Proof.
  revert seen. induction l1 as [| x l1 IH]; intros seen Hno Hid.
  - simpl app. simpl done_loop.
    rewrite (proj2 (Z.eqb_eq _ _) Hid).
    destruct (status t =? "done")%string; reflexivity.
  - simpl app. simpl done_loop.
    destruct (Z.eqb_spec (id x) tid) as [E | _].
    + exfalso. apply (Hno x); [now left | exact E].
    + rewrite IH; [| intros y Hy; apply Hno; now right | exact Hid].
      now rewrite <- app_assoc.
Qed.

(** Either no task has the id, or the list splits at the first one. *)
Lemma first_with_id (tid : Z) (l : list task) :
  (forall t, In t l -> id t <> tid)
  \/ exists l1 t l2,
       l = l1 ++ t :: l2 /\ id t = tid /\ forall x, In x l1 -> id x <> tid.
Proof.
  induction l as [| a l IH]; [left; intros t [] |].
  destruct (Z.eq_dec (id a) tid) as [E | NE].
  - right. exists [], a, l. split; [reflexivity |]. split; [exact E |].
    intros x [].
  - destruct IH as [Hno | [l1 [t [l2 [-> [Hid Hno]]]]]].
    + left. intros t [<- | Hin]; [exact NE | now apply Hno].
    + right. exists (a :: l1), t, l2. split; [reflexivity |]. split; [exact Hid |].
      intros x [<- | Hin]; [exact NE | now apply Hno].
Qed.


Lemma cmd_done_run (tid : Z) (w : world) :
  exec (cmd_done tid) w = exec (done_loop tid [] (store w)) w.
Proof. unfold exec, cmd_done. now rewrite bind_load. Qed.

Lemma cmd_done_cases (tid : Z) (w : world) :
  ((forall t, In t (store w) -> id t <> tid)
   /\ exec (cmd_done tid) w = exec (print (msg_not_found tid)) w)
  \/ exists l1 t l2,
       store w = l1 ++ t :: l2 /\ id t = tid
       /\ (forall x, In x l1 -> id x <> tid)
       /\ ((status t = "done"%string
            /\ exec (cmd_done tid) w = exec (print (msg_already_done tid)) w)
           \/ (status t <> "done"%string
               /\ exec (cmd_done tid) w
                  = saved_world (l1 ++ mark_done (clock w) t :: l2)
                                (msg_completed tid t) w)).
Proof.
  rewrite cmd_done_run.
  destruct (first_with_id tid (store w)) as [Hno | [l1 [t [l2 [E [Hid Hno]]]]]].
  - left. split; [exact Hno | now apply done_loop_not_found].
  - right. exists l1, t, l2. repeat split; try assumption.
    rewrite E, (done_loop_found tid l1 l2 [] t w Hno Hid).
    destruct (String.eqb_spec (status t) "done") as [Hd | Hd]; [left | right];
      (split; [exact Hd | reflexivity]).
Qed.


Ltac only_printed :=
  split; [reflexivity |];
  split; [reflexivity |];
  split; [apply store_file; reflexivity | eexists; reflexivity].

(** C7: running [done(id)] a second time, at whatever later time, leaves
    the data file, the save log and the store as the first run left them;
    it only prints one more line. *)
Theorem cmd_done_idempotent (w : world) (tid : Z) (now later : string) :
  json_roundtrip ->
  let w1 := invoke now (Done tid) w in
  let w2 := invoke later (Done tid) w1 in
  file w2 = file w1 /\ saved w2 = saved w1 /\ store w2 = store w1
  /\ exists line, stdout w2 = stdout w1 ++ [line].
Proof.
  intros RT w1 w2. subst w1 w2. unfold invoke. rewrite !exec_main. simpl func.
  set (v := set_clock now w).
  destruct (cmd_done_cases tid v)
    as [[Hno Hrun] | [l1 [t [l2 [E [Hid [Hfirst [[Hd Hrun] | [Hnd Hrun]]]]]]]]];
    rewrite Hrun.
  - (* not found, twice *)
    set (v1 := set_clock later (exec (print (msg_not_found tid)) v)).
    destruct (cmd_done_cases tid v1) as [[_ Hrun1] | [m1 [u [m2 [E1 [Hu _]]]]]].
    + rewrite Hrun1. only_printed.
    + exfalso. apply (Hno u); [| exact Hu].
      rewrite <- (store_file v1 v eq_refl), E1. apply in_elt.
  - (* already done, twice *)
    set (v1 := set_clock later (exec (print (msg_already_done tid)) v)).
    assert (Es : store v1 = l1 ++ t :: l2) by (rewrite <- E; now apply store_file).
    rewrite cmd_done_run, Es, (done_loop_found tid l1 l2 [] t v1 Hfirst Hid), Hd.
    only_printed.
  - (* completed, then already done *)
    set (t' := mark_done (clock v) t).
    set (v1 := set_clock later (saved_world (l1 ++ t' :: l2) (msg_completed tid t) v)).
    assert (Es : store v1 = l1 ++ t' :: l2).
    { rewrite <- (store_saved_world (l1 ++ t' :: l2) (msg_completed tid t) v RT).
      now apply store_file. }
    rewrite cmd_done_run, Es, (done_loop_found tid l1 l2 [] t' v1 Hfirst Hid).
    only_printed.
Qed.

End DoneCommand.

(** ** Load, save and the [list] command *)

Section LoadSaveList.
Context {lib : PyLib}.

(** C8: what [_save] writes, [_load] reads back: the same records (ids,
    titles, statuses, timestamps) in the same order, given that the [json]
    module reads back what it writes. *)
Theorem save_load_roundtrip (tasks : list task) (w : world) :
  json_roundtrip ->
  eval _load (exec (_save tasks) w) = tasks.
Proof. intros RT. now apply store_saved. Qed.

Lemma for_each_print (f : task -> string) (l : list task) (w : world) :
  exec (for_each l (fun t => print (f t))) w
  = mkWorld (file w) (clock w) (stdout w ++ map f l) (saved w).
Proof.
  revert w. induction l as [| x l IH]; intros w.
  - unfold exec. simpl. rewrite app_nil_r. now destruct w.
  - unfold exec in *. simpl for_each. unfold bind at 1. simpl.
    rewrite IH. simpl. now rewrite <- app_assoc.
Qed.

Lemma cmd_list_run (arg_all arg_done : bool) (w : world) :
  exec (cmd_list arg_all arg_done) w
  = mkWorld (file w) (clock w)
            (stdout w ++ render (list_view arg_all arg_done (store w)))
            (saved w).
Proof.
  unfold cmd_list. unfold exec at 1. rewrite bind_load. cbv zeta.
  destruct (list_view arg_all arg_done (store w)) as [| t view] eqn:E.
  - reflexivity.
  - apply (for_each_print task_line (t :: view) w).
Qed.

Lemma merge_filter {A} (f : A -> bool) (l : list A) :
  Merge (filter f l) (filter (fun x => negb (f x)) l) l.
Proof.
  induction l as [| x l IH]; simpl; [constructor |].
  destruct (f x); simpl; now constructor.
Qed.

Lemma merge_in {A} (l r m : list A) (x : A) :
  Merge l r m -> (In x m <-> In x l \/ In x r).
Proof.
  induction 1 as [| y l r m _ IH | y l r m _ IH]; simpl; tauto.
Qed.

Lemma filter_status_ext (tasks : list task) :
  Forall valid_status tasks ->
  filter (fun t => negb (status t =? "open")%string) tasks
  = filter (fun t => (status t =? "done")%string) tasks.
Proof.
  induction 1 as [| t l Hv _ IH]; [reflexivity |].
  simpl. rewrite IH.
  destruct Hv as [-> | ->]; reflexivity.
Qed.

(** C4: on a store that satisfies its invariants (every status is open or
    done, ids are unique), what [list --all] shows is the stored sequence
    in creation order; [list] shows tasks with status open only and
    [list --done] tasks with status done only; [--all] interleaves the
    two, keeping the order of each; a task is shown by [--all] exactly
    when one of the two shows it, never both; no task is shown twice; and
    what [cmd_list] prints is the rendering of the view of its flags. *)
Theorem list_all_is_union (w : world) :
  Forall valid_status (store w) ->
  unique_ids (store w) ->
  let all := list_view true false (store w) in
  let opened := list_view false false (store w) in
  let finished := list_view false true (store w) in
  all = store w
  /\ Forall (fun t => status t = "open"%string) opened
  /\ Forall (fun t => status t = "done"%string) finished
  /\ Merge opened finished all
  /\ (forall t, In t all <-> In t opened \/ In t finished)
  /\ (forall t, ~ (In t opened /\ In t finished))
  /\ NoDup all
  /\ (forall arg_all arg_done,
        stdout (exec (cmd_list arg_all arg_done) w)
        = stdout w ++ render (list_view arg_all arg_done (store w))).
Proof.
  intros Hvalid Huniq. cbv zeta. unfold list_view at 1 2 3 4 5 6 7 8 9 10.
  assert (HM : Merge (filter (fun t => (status t =? "open")%string) (store w))
                     (filter (fun t => (status t =? "done")%string) (store w))
                     (store w)).
  { rewrite <- (filter_status_ext _ Hvalid). apply merge_filter. }
  split; [reflexivity |].
  split; [apply Forall_forall; intros t Hin; apply filter_In in Hin;
          now apply String.eqb_eq |].
  split; [apply Forall_forall; intros t Hin; apply filter_In in Hin;
          now apply String.eqb_eq |].
  split; [exact HM |]. split; [| split; [| split]].
  - intros t. now apply merge_in.
  - intros t [Ho Hd]. apply filter_In in Ho, Hd.
    destruct Ho as [_ Ho], Hd as [_ Hd].
    apply String.eqb_eq in Ho, Hd. rewrite Ho in Hd. discriminate.
  - now apply NoDup_map_inv with (f := id).
  - intros arg_all arg_done. now rewrite cmd_list_run.
Qed.

End LoadSaveList.

(** ** Loading with exceptions *)

Section LoadRaising.
Context {lib : PyLib} {exc : PyRaises}.







End LoadRaising.

(** ** The [delete] command *)

Section DeleteCommand.
Context {lib : PyLib}.

Lemma filter_all {A} (f : A -> bool) (l : list A) :
  (forall x, In x l -> f x = true) -> filter f l = l.
Proof.
  induction l as [| x l IH]; intros Hall; [reflexivity |].
  simpl. rewrite (Hall x (or_introl eq_refl)), IH; [reflexivity |].
  intros y Hy. apply Hall. now right.
Qed.

Lemma filter_shorter {A} (f : A -> bool) (l : list A) (x : A) :
  In x l -> f x = false -> (List.length (filter f l) < List.length l)%nat.
Proof.
  induction l as [| y l IH]; intros Hin Hx; [contradiction |].
  pose proof (filter_length_le f l) as Hle. simpl.
  destruct Hin as [-> | Hin].
  - rewrite Hx. lia.
  - specialize (IH Hin Hx). destruct (f y); simpl; lia.
Qed.

Lemma keep_true (k : Z) (t : task) : keep k t = true <-> id t <> k.
Proof. unfold keep. destruct (Z.eqb_spec (id t) k); simpl; intuition congruence. Qed.

Lemma keep_false (k : Z) (t : task) : keep k t = false <-> id t = k.
Proof. unfold keep. destruct (Z.eqb_spec (id t) k); simpl; intuition congruence. Qed.

Lemma cmd_delete_absent (k : Z) (w : world) :
  (forall t, In t (store w) -> id t <> k) ->
  exec (cmd_delete k) w = exec (print (msg_not_found k)) w.
Proof.
  intros Hno. rewrite cmd_delete_run. cbv zeta. fold (keep k).
  rewrite (filter_all (keep k) (store w)), Nat.eqb_refl; [reflexivity |].
  intros t Hin. apply keep_true. now apply Hno.
Qed.

Lemma cmd_delete_present (k : Z) (w : world) (t : task) :
  In t (store w) -> id t = k ->
  exec (cmd_delete k) w
  = saved_world (filter (keep k) (store w)) (msg_deleted k) w.
Proof.
  intros Hin Hid. rewrite cmd_delete_run. cbv zeta. fold (keep k).
  pose proof (filter_shorter (keep k) (store w) t Hin (proj2 (keep_false k t) Hid)) as Hlt.
  destruct (Nat.eqb_spec (List.length (filter (keep k) (store w)))
                         (List.length (store w))) as [E | _]; [| reflexivity].
  lia.
Qed.

Lemma store_after_delete (k : Z) (w : world) :
  json_roundtrip ->
  store (exec (cmd_delete k) w) = filter (keep k) (store w).
Proof.
  intros RT.
  destruct (first_with_id k (store w)) as [Hno | [l1 [t [l2 [E [Hid _]]]]]].
  - rewrite (cmd_delete_absent k w Hno), store_print, filter_all; [reflexivity |].
    intros t Hin. apply keep_true. now apply Hno.
  - rewrite (cmd_delete_present k w t); [now apply store_saved_world | | exact Hid].
    rewrite E. apply in_elt.
Qed.


End DeleteCommand.

(** ** The store across commands *)

Section StoreAcrossCommands.
Context {lib : PyLib}.
Hypothesis RT : json_roundtrip.

Lemma store_after_add (arg_title : string) (w : world) :
  store (exec (cmd_add arg_title) w)
  = store w ++ [mkTask (_next_id (store w)) (strip arg_title) "open" (clock w) None].
Proof. rewrite cmd_add_run. cbv zeta. now apply store_saved_world. Qed.

Lemma store_after_list (arg_all arg_done : bool) (w : world) :
  store (exec (cmd_list arg_all arg_done) w) = store w.
Proof. rewrite cmd_list_run. now apply store_file. Qed.

(** [cmd_done] leaves the store as it is, or replaces one task that was not
    done by its completed version. *)
Lemma store_after_done (tid : Z) (w : world) :
  store (exec (cmd_done tid) w) = store w
  \/ exists l1 t l2,
       store w = l1 ++ t :: l2 /\ status t <> "done"%string
       /\ store (exec (cmd_done tid) w) = l1 ++ mark_done (clock w) t :: l2.
Proof.
  destruct (cmd_done_cases tid w)
    as [[_ Hrun] | [l1 [t [l2 [E [_ [_ [[_ Hrun] | [Hnd Hrun]]]]]]]]];
    rewrite Hrun.
  - left. apply store_print.
  - left. apply store_print.
  - right. exists l1, t, l2. split; [exact E |]. split; [exact Hnd |].
    now apply store_saved_world.
Qed.

Lemma invoke_run (now : string) (args : command) (w : world) :
  invoke now args w = exec (func args) (set_clock now w).
Proof. unfold invoke. apply exec_main. Qed.

Lemma nth_error_replace {A} (l1 l2 : list A) (a b x : A) (i : nat) :
  nth_error (l1 ++ a :: l2) i = Some x -> x <> a ->
  nth_error (l1 ++ b :: l2) i = Some x.
Proof.
  revert i. induction l1 as [| y l1 IH]; intros i Hnth Hne.
  - destruct i as [| i]; simpl in *; [congruence | exact Hnth].
  - destruct i as [| i]; simpl in *; [exact Hnth | now apply IH].
Qed.

Lemma task_ok_new (n : Z) (ti now : string) : task_ok (mkTask n ti "open" now None).
Proof. split; simpl; [discriminate | reflexivity]. Qed.

Lemma task_ok_mark_done (now : string) (t : task) : task_ok (mark_done now t).
Proof. split; simpl; [discriminate | discriminate]. Qed.

(** C9: every command keeps the invariant that a done task has [done_at]
    set and an open task has none; and done is terminal: after [add],
    [list] or [done] every task that was done is still at its position
    with all its fields; after [delete(k)] every done task is still in the
    store with all its fields unless its id is [k], in which case no task
    with that id is left; and [delete(k)] leaves only tasks of the old
    store, with all their fields. *)
Theorem commands_preserve_invariant (w : world) (now : string) (args : command) :
  let w' := invoke now args w in
  (store_ok (store w) -> store_ok (store w'))
  /\ (forall i t,
        nth_error (store w) i = Some t -> status t = "done"%string ->
        (forall k, args <> Delete k) ->
        nth_error (store w') i = Some t)
  /\ (forall t,
        In t (store w) -> status t = "done"%string ->
        In t (store w')
        \/ (args = Delete (id t) /\ forall u, In u (store w') -> id u <> id t))
  /\ (forall k u,
        args = Delete k -> In u (store w') -> In u (store w) /\ id u <> k).
Proof.
  intros w'. subst w'. rewrite invoke_run.
  set (v := set_clock now w).
  assert (Ev : store v = store w) by now apply store_file.
  rewrite <- Ev. clearbody v. clear Ev.
  destruct args as [arg_title | arg_all arg_done | tid | k]; simpl func.
  - (* add *)
    rewrite store_after_add. split; [| split; [| split]].
    + intros Hok. apply Forall_app. split; [exact Hok |].
      constructor; [apply task_ok_new | constructor].
    + intros i t Hnth _ _. rewrite nth_error_app1; [exact Hnth |].
      apply nth_error_Some. congruence.
    + intros t Hin _. left. apply in_or_app. now left.
    + intros k u E. discriminate E.
  - (* list *)
    rewrite store_after_list. split; [| split; [| split]]; auto.
    intros k u E. discriminate E.
  - (* done *)
    destruct (store_after_done tid v) as [E | [l1 [t0 [l2 [E [Hnd E']]]]]].
    + rewrite E. split; [| split; [| split]]; auto.
      intros k u E0. discriminate E0.
    + rewrite E', E. split; [| split; [| split]].
      * intros Hok. apply Forall_app in Hok. destruct Hok as [H1 H2].
        inversion H2; subst. apply Forall_app. split; [exact H1 |].
        constructor; [apply task_ok_mark_done | assumption].
      * intros i t Hnth Hd _. apply (nth_error_replace l1 l2 t0); [exact Hnth |].
        intros ->. contradiction.
      * intros t Hin Hd. left. apply in_app_or in Hin. apply in_or_app.
        destruct Hin as [Hin | [<- | Hin]]; [now left | contradiction | now right; right].
      * intros k u E0. discriminate E0.
  - (* delete *)
    rewrite (store_after_delete k v RT). split; [| split; [| split]].
    + intros Hok. apply Forall_forall. intros t Hin.
      apply filter_In in Hin. destruct Hin as [Hin _].
      revert t Hin. now apply Forall_forall.
    + intros i t _ _ Hnot. exfalso. now apply (Hnot k).
    + intros t Hin _. destruct (Z.eq_dec (id t) k) as [E | NE].
      * right. split; [now rewrite E |].
        intros u Hu. apply filter_In in Hu. rewrite E. now apply keep_true.
      * left. apply filter_In. split; [exact Hin | now apply keep_true].
    + intros k0 u E Hu. injection E as <-. apply filter_In in Hu.
      split; [tauto | now apply keep_true].
Qed.

End StoreAcrossCommands.

(** ** Ids assigned along a script *)

Section AssignedIds.
Context {lib : PyLib}.
Hypothesis RT : json_roundtrip.

Lemma next_id_snoc (l : list task) (t : task) :
  id t = _next_id l -> _next_id (l ++ [t]) = _next_id l + 1.
Proof.
  intros Hid. unfold _next_id at 1. f_equal.
  apply max_default_eq. rewrite map_app. simpl. split.
  - apply in_or_app. right. now left.
  - intros x Hx. apply in_app_or in Hx. destruct Hx as [Hx | [<- | []]]; [| lia].
    apply in_map_iff in Hx. destruct Hx as [u [<- Hu]].
    pose proof (next_id_gt l u Hu). lia.
Qed.

Lemma next_id_same_ids (l l' : list task) :
  map id l = map id l' -> _next_id l = _next_id l'.
Proof. unfold _next_id. now intros ->. Qed.

Lemma next_id_filter (k : Z) (l : list task) :
  (In k (map id l) -> k < max_default (map id l) 0) ->
  _next_id (filter (keep k) l) = _next_id l.
Proof.
  intros Hk.
  destruct (first_with_id k l) as [Hno | [l1 [t [l2 [E [Hid _]]]]]].
  - rewrite filter_all; [reflexivity |].
    intros t Hin. apply keep_true. now apply Hno.
  - assert (Hin : In k (map id l)).
    { rewrite E, <- Hid. apply in_map, in_elt. }
    specialize (Hk Hin). unfold _next_id. f_equal.
    destruct l as [| a l']; [destruct l1; discriminate E |].
    destruct (max_default_is_max (id a) (map id l') 0) as [Hm Hub].
    change (id a :: map id l') with (map id (a :: l')) in *.
    apply max_default_eq. split.
    + apply in_map_iff in Hm. destruct Hm as [u [Eu Hu]].
      apply in_map_iff. exists u. split; [exact Eu |].
      apply filter_In. split; [exact Hu |]. apply keep_true. lia.
    + intros x Hx. apply Hub. apply in_map_iff in Hx.
      destruct Hx as [u [<- Hu]]. apply in_map.
      apply filter_In in Hu. tauto.
Qed.

Lemma last_id_snoc (l : list task) (t : task) : last_id (l ++ [t]) = id t.
Proof. unfold last_id. rewrite map_app. simpl. apply last_last. Qed.

Lemma map_id_mark_done (l1 l2 : list task) (now : string) (t : task) :
  map id (l1 ++ mark_done now t :: l2) = map id (l1 ++ t :: l2).
Proof. rewrite !map_app. reflexivity. Qed.

(** The id an [add] assigns is the next id of the store it finds. *)
Lemma adds_cons_add (now arg_title : string) (rest : list (string * command))
      (w : world) :
  adds ((now, Add arg_title) :: rest) w
  = (store w, _next_id (store w)) :: adds rest (invoke now (Add arg_title) w).
Proof.
  simpl adds. f_equal. f_equal.
  rewrite invoke_run. simpl func.
  rewrite (store_after_add RT), last_id_snoc. simpl.
  f_equal. now apply store_file.
Qed.

Lemma adds_fresh (script : list (string * command)) :
  forall w,
    Forall (fun p => Forall (fun t => id t < snd p) (fst p)) (adds script w).
Proof.
  induction script as [| [now args] rest IH]; intros w; [constructor |].
  destruct args as [arg_title | arg_all arg_done | tid | k];
    try (simpl adds; apply IH).
  rewrite adds_cons_add. constructor; [| apply IH].
  simpl. apply Forall_forall. intros t Hin. now apply next_id_gt.
Qed.

Lemma next_id_after (now : string) (args : command) (w : world) :
  match args with
  | Delete k => In k (map id (store w)) -> k < max_default (map id (store w)) 0
  | _ => True
  end ->
  _next_id (store (invoke now args w))
  = match args with
    | Add _ => _next_id (store w) + 1
    | _ => _next_id (store w)
    end.
Proof.
  intros Hk. rewrite invoke_run.
  set (v := set_clock now w).
  assert (Ev : store v = store w) by now apply store_file.
  rewrite <- Ev in *. clearbody v. clear Ev.
  destruct args as [arg_title | arg_all arg_done | tid | k]; simpl func.
  - rewrite (store_after_add RT). now apply next_id_snoc.
  - now rewrite store_after_list.
  - destruct (store_after_done RT tid v) as [E | [l1 [t [l2 [E [_ E']]]]]].
    + now rewrite E.
    + apply next_id_same_ids. rewrite E', E. apply map_id_mark_done.
  - rewrite (store_after_delete k v RT). now apply next_id_filter.
Qed.

Lemma assigned_ids_increase (script : list (string * command)) :
  forall w,
    keeps_highest script w ->
    Forall (fun i => _next_id (store w) <= i) (assigned_ids script w)
    /\ StronglySorted Z.lt (assigned_ids script w).
Proof.
  unfold assigned_ids.
  induction script as [| [now args] rest IH]; intros w Hkeep.
  - split; constructor.
  - destruct Hkeep as [Hk Hkeep].
    destruct (IH _ Hkeep) as [Hge Hsorted].
    pose proof (next_id_after now args w) as Hnext.
    destruct args as [arg_title | arg_all arg_done | tid | k].
    + rewrite adds_cons_add. simpl map. rewrite (Hnext I) in Hge.
      split.
      * constructor; [simpl; lia |].
        eapply Forall_impl; [| exact Hge]. simpl. intros; lia.
      * constructor; [exact Hsorted |].
        eapply Forall_impl; [| exact Hge]. simpl. intros; lia.
    + simpl adds. rewrite (Hnext I) in Hge. now split.
    + simpl adds. rewrite (Hnext I) in Hge. now split.
    + simpl adds. rewrite (Hnext Hk) in Hge. now split.
Qed.

(** C1, as the code has it: along any script, from any store, the id an
    [add] assigns is strictly greater than the id of every task of the
    store it finds (so it is the id of no stored task); and when no
    [delete] of the script removes the task holding the highest id, the
    ids assigned by successive [add]s are strictly increasing. *)
Theorem add_ids_fresh_and_increasing (script : list (string * command)) (w : world) :
  Forall (fun p => Forall (fun t => id t < snd p) (fst p)) (adds script w)
  /\ (keeps_highest script w -> StronglySorted Z.lt (assigned_ids script w)).
Proof.
  split; [apply adds_fresh |].
  intros Hkeep. now apply assigned_ids_increase.
Qed.

End AssignedIds.

(** ** The program on the reference library *)

Lemma ref_lib_roundtrip : json_roundtrip (lib := ref_lib).
Proof. exact RefLibFacts.loads_dumps. Qed.

Example sample_store : store sample_world = sample.
Proof. vm_compute. reflexivity. Qed.

Example scenario1 :
  stdout (run [("t0"%string, Add "Buy milk"); ("t1"%string, List false false)] fresh)
  = ["✅ added #1: Buy milk"; "📝 #  1  Buy milk"]%string.
Proof. vm_compute. reflexivity. Qed.

Example scenario3 :
  invoke "t0" (Done 99) sample_world
  = mkWorld (file sample_world) "t0" ["❌ no task with id #99 found."]%string [].
Proof. vm_compute. reflexivity. Qed.

Example scenario4_ids :
  assigned_ids scenario4 fresh = [1; 2; 3]
  /\ map id (store (run scenario4 fresh)) = [2; 3].
Proof. vm_compute. split; reflexivity. Qed.

Example unparseable_file_lists_nothing :
  let w := mkWorld (Some "[{ oops"%string) "t0" [] [] in
  json_loads "[{ oops" = None
  /\ stdout (invoke "t0" (List true false) w) = [msg_no_tasks].
Proof. vm_compute. split; reflexivity. Qed.


(** On the sample, and on the file whose text does not parse, the run with
    exceptions is the run of [Section Program]. *)
Example raising_agrees_on_readable_files :
  Raising.main (Done 2) sample_world
  = (Ok tt, exec (main (Done 2)) sample_world)
  /\ Raising.main (List true false) unreadable_world
     = (Ok tt, exec (print msg_no_tasks) unreadable_world).
Proof. vm_compute. split; reflexivity. Qed.

(** The two hypotheses on the store are needed.  A status other than the
    two literals is shown by [list --all] only; with a duplicated id,
    [done] acts on the first task that has it. *)
Example other_status_only_in_all :
  let t := mkTask 1 "x" "paused" "t0" None in
  list_view true false [t] = [t]
  /\ list_view false false [t] = []
  /\ list_view false true [t] = [].
Proof. repeat split. Qed.

Example done_acts_on_first_match :
  let a := mkTask 1 "a" "done" "t0" (Some "t1") in
  let b := mkTask 1 "b" "open" "t0" None in
  let w := mkWorld (Some (RefLib.dumps [a; b])) "t2" [] [] in
  store w = [a; b]
  /\ exec (cmd_done 1) w = exec (print (msg_already_done 1)) w.
Proof. vm_compute. split; reflexivity. Qed.

(** C1 fails as stated: after two adds, deleting task 2 makes the next add
    assign id 2 again. *)
Lemma ids_reused_after_delete :
  json_roundtrip (lib := ref_lib)
  /\ store fresh = []
  /\ assigned_ids reuse_script fresh = [1; 2; 2]
  /\ ~ StronglySorted Z.lt (assigned_ids reuse_script fresh)
  /\ ~ NoDup (assigned_ids reuse_script fresh).
Proof.
  split; [exact ref_lib_roundtrip |]. split; [reflexivity |].
  assert (E : assigned_ids reuse_script fresh = [1; 2; 2])
    by (vm_compute; reflexivity).
  rewrite E. split; [reflexivity |]. split.
  - intros H. inversion H as [| ? ? H1 _]; subst.
    inversion H1 as [| ? ? _ H2]; subst.
    inversion H2 as [| ? ? Hlt _]; subst. lia.
  - intros H. inversion H as [| ? ? _ H1]; subst.
    inversion H1 as [| ? ? Hnotin _]; subst. apply Hnotin. now left.
Qed.

Lemma add_ids_fresh_and_increasing_witness :
  json_roundtrip (lib := ref_lib)
  /\ keeps_highest scenario4 fresh
  /\ StronglySorted Z.lt (assigned_ids scenario4 fresh).
Proof.
  assert (Hk : keeps_highest scenario4 fresh).
  { vm_compute. repeat split. }
  split; [exact ref_lib_roundtrip |]. split; [exact Hk |].
  exact (proj2 (add_ids_fresh_and_increasing ref_lib_roundtrip scenario4 fresh) Hk).
Defined.

Lemma sample_unique_ids : unique_ids (store sample_world).
Proof.
  vm_compute. repeat constructor; simpl; intuition discriminate.
Defined.

Lemma sample_valid_status : Forall valid_status (store sample_world).
Proof.
  vm_compute. repeat constructor; (now left) || (now right).
Defined.



Lemma list_all_is_union_witness :
  Forall valid_status (store sample_world)
  /\ unique_ids (store sample_world)
  /\ Forall (fun t => status t = "open"%string)
            (list_view false false (store sample_world))
  /\ Forall (fun t => status t = "done"%string)
            (list_view false true (store sample_world))
  /\ Merge (list_view false false (store sample_world))
           (list_view false true (store sample_world))
           (list_view true false (store sample_world)).
Proof.
  split; [exact sample_valid_status |]. split; [exact sample_unique_ids |].
  pose proof (list_all_is_union sample_world
                sample_valid_status sample_unique_ids) as H.
  cbv zeta in H. destruct H as [_ [Ho [Hd [HM _]]]].
  split; [exact Ho |]. split; [exact Hd | exact HM].
Defined.

Lemma cmd_done_idempotent_witness :
  json_roundtrip (lib := ref_lib)
  /\ store (invoke "2024-05-06T00:00:00" (Done 2)
              (invoke "2024-05-05T00:00:00" (Done 2) sample_world))
     = store (invoke "2024-05-05T00:00:00" (Done 2) sample_world).
Proof.
  split; [exact ref_lib_roundtrip |].
  exact (proj1 (proj2 (proj2
    (cmd_done_idempotent sample_world 2 "2024-05-05T00:00:00" "2024-05-06T00:00:00"
       ref_lib_roundtrip)))).
Defined.

Lemma save_load_roundtrip_witness :
  json_roundtrip (lib := ref_lib)
  /\ eval _load (exec (_save sample) fresh) = sample.
Proof.
  split; [exact ref_lib_roundtrip |].
  exact (save_load_roundtrip sample fresh ref_lib_roundtrip).
Defined.

Lemma commands_preserve_invariant_witness :
  json_roundtrip (lib := ref_lib)
  /\ store_ok (store sample_world)
  /\ store_ok (store (invoke "2024-05-05T00:00:00" (Delete 1) sample_world)).
Proof.
  assert (Hok : store_ok (store sample_world)).
  { vm_compute. repeat constructor; try discriminate; reflexivity. }
  split; [exact ref_lib_roundtrip |]. split; [exact Hok |].
  exact (proj1 (commands_preserve_invariant ref_lib_roundtrip sample_world
                  "2024-05-05T00:00:00" (Delete 1)) Hok).
Defined.

(** ** Further properties of the commands *)

Section CommandEffects.
Context {lib : PyLib}.
Hypothesis RT : json_roundtrip.

(** The store a run leaves, command by command. *)
Lemma invoke_store (now : string) (args : command) (w : world) :
  let s := store w in
  let s' := store (invoke now args w) in
  match args with
  | Add arg_title =>
      s' = s ++ [mkTask (_next_id s) (strip arg_title) "open" now None]
  | List _ _ => s' = s
  | Done tid =>
      s' = s
      \/ exists l1 t l2,
           s = l1 ++ t :: l2 /\ id t = tid /\ status t <> "done"%string
           /\ (forall x, In x l1 -> id x <> tid)
           /\ s' = l1 ++ mark_done now t :: l2
  | Delete k => s' = filter (keep k) s
  end.
Proof.
  cbv zeta. rewrite invoke_run.
  set (v := set_clock now w).
  assert (Ev : store w = store v) by now apply store_file.
  assert (Ec : clock v = now) by reflexivity.
  rewrite Ev. clearbody v. clear Ev.
  destruct args as [arg_title | arg_all arg_done | tid | k]; simpl func.
  - now rewrite (store_after_add RT), Ec.
  - apply store_after_list.
  - destruct (cmd_done_cases tid v)
      as [[_ Hrun] | [l1 [t [l2 [E [Hid [Hfirst [[_ Hrun] | [Hnd Hrun]]]]]]]]];
      rewrite Hrun.
    + left. apply store_print.
    + left. apply store_print.
    + right. exists l1, t, l2. rewrite <- Ec.
      repeat (split; [assumption |]). now apply store_saved_world.
  - now apply store_after_delete.
Qed.

(** A property of stores that the three ways of changing a store keep is
    kept by every run. *)
Lemma invoke_preserves (P : list task -> Prop) :
  (forall l ti now, P l -> P (l ++ [mkTask (_next_id l) ti "open" now None])) ->
  (forall l1 t l2 now,
     status t <> "done"%string ->
     P (l1 ++ t :: l2) -> P (l1 ++ mark_done now t :: l2)) ->
  (forall l k, P l -> P (filter (keep k) l)) ->
  forall now args w, P (store w) -> P (store (invoke now args w)).
Proof.
  intros Hadd Hdone Hdel now args w HP.
  pose proof (invoke_store now args w) as H. cbv zeta in H.
  destruct args as [arg_title | arg_all arg_done | tid | k].
  - rewrite H. now apply Hadd.
  - now rewrite H.
  - destruct H as [-> | [l1 [t [l2 [E [_ [Hnd [_ ->]]]]]]]]; [exact HP |].
    apply Hdone; [exact Hnd | now rewrite <- E].
  - rewrite H. now apply Hdel.
Qed.

Lemma run_preserves (P : list task -> Prop) :
  (forall now args w, P (store w) -> P (store (invoke now args w))) ->
  forall script w, P (store w) -> P (store (run script w)).
Proof.
  intros Hstep script. unfold run.
  induction script as [| [now args] rest IH]; intros w HP; [exact HP |].
  simpl. apply IH. now apply Hstep.
Qed.

Lemma sorted_snoc (xs : list Z) (y : Z) :
  StronglySorted Z.lt xs -> Forall (fun x => x < y) xs ->
  StronglySorted Z.lt (xs ++ [y]).
Proof.
  induction 1 as [| x xs Hs IH Hx]; intros Hall; simpl.
  - repeat constructor.
  - inversion Hall; subst. constructor; [now apply IH |].
    apply Forall_app. split; [exact Hx | now repeat constructor].
Qed.

Lemma sorted_filter (f : task -> bool) (l : list task) :
  StronglySorted Z.lt (map id l) -> StronglySorted Z.lt (map id (filter f l)).
Proof.
  induction l as [| t l IH]; intros Hs; simpl in *; [constructor |].
  inversion Hs as [| ? ? Hs' Hall]; subst.
  destruct (f t); simpl; [| now apply IH].
  constructor; [now apply IH |].
  apply Forall_forall. intros x Hx. apply in_map_iff in Hx.
  destruct Hx as [u [<- Hu]]. apply filter_In in Hu.
  rewrite Forall_forall in Hall. apply Hall. apply in_map. tauto.
Qed.

Lemma forall_filter {A} (P : A -> Prop) (f : A -> bool) (l : list A) :
  Forall P l -> Forall P (filter f l).
Proof.
  intros H. apply Forall_forall. intros x Hx. apply filter_In in Hx.
  rewrite Forall_forall in H. apply H. tauto.
Qed.

Lemma forall_replace {A} (P : A -> Prop) (l1 l2 : list A) (a b : A) :
  P b -> Forall P (l1 ++ a :: l2) -> Forall P (l1 ++ b :: l2).
Proof.
  intros Hb H. apply Forall_app in H. destruct H as [H1 H2].
  inversion H2; subst. apply Forall_app. split; [exact H1 | now constructor].
Qed.

Lemma next_id_positive (l : list task) :
  Forall (fun t => 0 < id t) l -> 0 < _next_id l.
Proof.
  intros H. destruct l as [| t l]; [reflexivity |].
  inversion H; subst. pose proof (next_id_gt (t :: l) t (or_introl eq_refl)). lia.
Qed.

Lemma well_formed_invoke (now : string) (args : command) (w : world) :
  well_formed (store w) -> well_formed (store (invoke now args w)).
Proof.
  apply (invoke_preserves well_formed); unfold well_formed.
  - intros l ti t0 [Hs [Hpos [Hval Hok]]]. repeat split.
    + rewrite map_app. apply sorted_snoc; [exact Hs |].
      apply Forall_forall. intros x Hx. apply in_map_iff in Hx.
      destruct Hx as [u [<- Hu]]. now apply next_id_gt.
    + apply Forall_app. split; [exact Hpos |].
      constructor; [now apply next_id_positive | constructor].
    + apply Forall_app. split; [exact Hval |].
      constructor; [now left | constructor].
    + apply Forall_app. split; [exact Hok |].
      constructor; [apply task_ok_new | constructor].
  - intros l1 t l2 t0 _ [Hs [Hpos [Hval Hok]]]. repeat split.
    + now rewrite map_id_mark_done.
    + apply (forall_replace _ l1 l2 t); [| exact Hpos].
      apply Forall_app in Hpos. destruct Hpos as [_ H2]. now inversion H2.
    + apply (forall_replace _ l1 l2 t); [now right | exact Hval].
    + apply (forall_replace _ l1 l2 t); [apply task_ok_mark_done | exact Hok].
  - intros l k [Hs [Hpos [Hval Hok]]]. repeat split.
    + now apply sorted_filter.
    + now apply forall_filter.
    + now apply forall_filter.
    + now apply forall_filter.
Qed.

(** X1: a store that satisfies the invariants of the data model still
    satisfies them after any script of commands: ids stay positive and
    strictly increasing along the sequence, statuses stay among open and
    done, and [done_at] stays set exactly on the done tasks. *)
Theorem run_keeps_well_formed (script : list (string * command)) (w : world) :
  well_formed (store w) -> well_formed (store (run script w)).
Proof.
  apply (run_preserves well_formed). intros now args v. apply well_formed_invoke.
Qed.

Lemma nodup_filter_ids (f : task -> bool) (l : list task) :
  NoDup (map id l) -> NoDup (map id (filter f l)).
Proof.
  induction l as [| t l IH]; intros Hnd; simpl in *; [constructor |].
  inversion Hnd as [| ? ? Hnotin Hnd']; subst.
  destruct (f t); simpl; [| now apply IH].
  constructor; [| now apply IH].
  intros Hin. apply Hnotin. apply in_map_iff in Hin.
  destruct Hin as [u [E Hu]]. apply filter_In in Hu.
  rewrite <- E. apply in_map. tauto.
Qed.

Lemma nodup_snoc (xs : list Z) (y : Z) :
  NoDup xs -> ~ In y xs -> NoDup (xs ++ [y]).
Proof.
  induction 1 as [| x xs Hx Hnd IH]; intros Hy; simpl.
  - repeat constructor. intros [].
  - constructor.
    + intros Hin. apply in_app_or in Hin. destruct Hin as [Hin | [E | []]].
      * contradiction.
      * apply Hy. now left.
    + apply IH. intros Hin. apply Hy. now right.
Qed.

(** X2: every command keeps the ids of the store pairwise distinct,
    whatever the ids are (a store edited by hand need not have them
    positive or in order). *)
Theorem commands_keep_ids_unique (now : string) (args : command) (w : world) :
  unique_ids (store w) -> unique_ids (store (invoke now args w)).
Proof.
  apply (invoke_preserves unique_ids); unfold unique_ids.
  - intros l ti t0 Hnd. rewrite map_app. apply nodup_snoc; [exact Hnd |].
    intros Hin. apply in_map_iff in Hin.
    destruct Hin as [u [E Hu]]. pose proof (next_id_gt l u Hu). simpl in E. lia.
  - intros l1 t l2 t0 _ Hnd. now rewrite map_id_mark_done.
  - intros l k Hnd. now apply nodup_filter_ids.
Qed.

Lemma filter_keep_below (n : Z) (l : list task) :
  (forall t, In t l -> id t < n) -> filter (keep n) l = l.
Proof.
  intros H. apply filter_all. intros t Hin. apply keep_true.
  specialize (H t Hin). lia.
Qed.

(** X3: deleting the id that an [add] has just assigned gives back the
    store as it was before the [add]. *)
Theorem add_then_delete_restores (w : world) (arg_title t1 t2 : string) :
  store (invoke t2 (Delete (_next_id (store w))) (invoke t1 (Add arg_title) w))
  = store w.
Proof.
  pose proof (invoke_store t1 (Add arg_title) w) as Hadd.
  pose proof (invoke_store t2 (Delete (_next_id (store w)))
                           (invoke t1 (Add arg_title) w)) as Hdel.
  cbv zeta in Hadd, Hdel. rewrite Hdel, Hadd, filter_app.
  rewrite filter_keep_below by (intros t Hin; now apply next_id_gt).
  simpl. unfold keep at 1. simpl id. rewrite Z.eqb_refl. simpl.
  apply app_nil_r.
Qed.

Lemma no_id_after_delete (k : Z) (now : string) (w : world) :
  forall t, In t (store (invoke now (Delete k) w)) -> id t <> k.
Proof.
  intros t Hin. pose proof (invoke_store now (Delete k) w) as H.
  cbv zeta in H. rewrite H in Hin. apply filter_In in Hin.
  now apply keep_true.
Qed.

(** X4: once [delete(k)] has run, a further [delete(k)] and a [done(k)] both
    find no task with the id: they print the not-found line and leave the
    file and the save log alone. *)
Theorem deleted_id_is_gone (w : world) (k : Z) (t1 t2 : string) :
  let w1 := invoke t1 (Delete k) w in
  invoke t2 (Delete k) w1 = exec (print (msg_not_found k)) (set_clock t2 w1)
  /\ invoke t2 (Done k) w1 = exec (print (msg_not_found k)) (set_clock t2 w1).
Proof.
  intros w1.
  assert (Hno : forall t, In t (store (set_clock t2 w1)) -> id t <> k).
  { intros t Hin. apply (no_id_after_delete k t1 w).
    now rewrite (store_file (set_clock t2 w1) w1 eq_refl) in Hin. }
  rewrite !invoke_run. simpl func. split.
  - now apply cmd_delete_absent.
  - rewrite cmd_done_run. now apply done_loop_not_found.
Qed.

(** X8: a script made of [add]s only assigns consecutive ids, starting at
    the next id of the store it starts from (1 on an empty store). *)
Theorem adds_assign_consecutive_ids (script : list (string * command)) (w : world) :
  Forall is_add script ->
  assigned_ids script w = count_from (_next_id (store w)) script.
Proof.
  unfold assigned_ids. revert w.
  induction script as [| [now args] rest IH]; intros w Hadds; [reflexivity |].
  inversion Hadds as [| ? ? Hadd Hrest]; subst.
  destruct args as [arg_title | | |]; try contradiction.
  rewrite (adds_cons_add RT). simpl. f_equal.
  rewrite (IH _ Hrest). f_equal.
  exact (next_id_after RT now (Add arg_title) w I).
Qed.

(** X10: [done(id)] changes no id, no title and no creation time, adds or
    removes no task, and leaves every task with another id as it is, at
    its position. *)
Theorem done_touches_one_task (w : world) (tid : Z) (now : string) :
  let s := store w in
  let s' := store (invoke now (Done tid) w) in
  map id s' = map id s
  /\ map title s' = map title s
  /\ map created_at s' = map created_at s
  /\ forall i t, nth_error s i = Some t -> id t <> tid -> nth_error s' i = Some t.
Proof.
  cbv zeta. pose proof (invoke_store now (Done tid) w) as H. cbv zeta in H.
  destruct H as [-> | [l1 [t0 [l2 [E [Hid [_ [_ ->]]]]]]]]; [now repeat split |].
  rewrite E. repeat split; try (rewrite !map_app; reflexivity).
  intros i t Hnth Hne. apply (nth_error_replace l1 l2 t0); [exact Hnth |].
  intros ->. contradiction.
Qed.

(** X11: when some task has the id, a [done(id)] that follows a [done(id)]
    prints the already-done line. *)
Theorem second_done_says_already_done (w : world) (tid : Z) (t1 t2 : string) :
  (exists t, In t (store w) /\ id t = tid) ->
  let w1 := invoke t1 (Done tid) w in
  stdout (invoke t2 (Done tid) w1) = stdout w1 ++ [msg_already_done tid].
Proof.
  intros [t [Hin Ht]] w1. subst w1. rewrite !invoke_run. simpl func.
  set (v := set_clock t1 w).
  assert (Ev : store v = store w) by now apply store_file.
  destruct (cmd_done_cases tid v)
    as [[Hno _] | [l1 [u [l2 [E [Hid [Hfirst [[Hd Hrun] | [Hnd Hrun]]]]]]]]].
  - exfalso. apply (Hno t); [now rewrite Ev | exact Ht].
  - rewrite Hrun.
    set (v1 := set_clock t2 (exec (print (msg_already_done tid)) v)).
    assert (Es : store v1 = l1 ++ u :: l2) by (rewrite <- E; now apply store_file).
    rewrite cmd_done_run, Es, (done_loop_found tid l1 l2 [] u v1 Hfirst Hid), Hd.
    reflexivity.
  - rewrite Hrun.
    set (u' := mark_done (clock v) u).
    set (v1 := set_clock t2 (saved_world (l1 ++ u' :: l2) (msg_completed tid u) v)).
    assert (Es : store v1 = l1 ++ u' :: l2).
    { rewrite <- (store_saved_world (l1 ++ u' :: l2) (msg_completed tid u) v RT).
      now apply store_file. }
    rewrite cmd_done_run, Es, (done_loop_found tid l1 l2 [] u' v1 Hfirst Hid).
    reflexivity.
Qed.

(** X12: [done] on the id that an [add] has just assigned completes the new
    task and nothing else: the store is the old one followed by the new
    task with status done and [done_at] the time of the [done]. *)
Theorem add_then_done_completes (w : world) (arg_title t1 t2 : string) :
  store (invoke t2 (Done (_next_id (store w))) (invoke t1 (Add arg_title) w))
  = store w
    ++ [mkTask (_next_id (store w)) (strip arg_title) "done" t1 (Some t2)].
Proof.
  pose proof (invoke_store t1 (Add arg_title) w) as Hadd. cbv zeta in Hadd.
  set (n := _next_id (store w)) in *.
  set (new := mkTask n (strip arg_title) "open" t1 None) in *.
  set (w1 := invoke t1 (Add arg_title) w) in *.
  rewrite invoke_run. simpl func.
  set (v1 := set_clock t2 w1).
  assert (Es : store v1 = store w ++ new :: [])
    by (rewrite (store_file v1 w1 eq_refl); exact Hadd).
  rewrite cmd_done_run, Es.
  rewrite (done_loop_found n (store w) [] [] new v1).
  - simpl. now apply store_saved_world.
  - intros x Hx. pose proof (next_id_gt (store w) x Hx). fold n in H. lia.
  - reflexivity.
Qed.

(** X13: a run invents nothing: every task of the store it leaves is a
    task of the store it found, unchanged in all fields, or the completed
    version of a task that [done] found not done under its id, or the one
    task that [add] built with the next id.  So no command changes an id,
    a title or a creation time. *)
Theorem task_provenance (now : string) (args : command) (w : world) :
  forall t', In t' (store (invoke now args w)) ->
    In t' (store w)
    \/ (exists tid t,
          args = Done tid /\ In t (store w) /\ id t = tid
          /\ status t <> "done"%string
          /\ t' = mkTask (id t) (title t) "done" (created_at t) (Some now))
    \/ (exists arg_title,
          args = Add arg_title
          /\ t' = mkTask (_next_id (store w)) (strip arg_title) "open" now None).
Proof.
  intros t' Hin. pose proof (invoke_store now args w) as H. cbv zeta in H.
  destruct args as [arg_title | arg_all arg_done | tid | k].
  - rewrite H in Hin. apply in_app_or in Hin.
    destruct Hin as [Hin | [<- | []]]; [now left |].
    right. right. now exists arg_title.
  - rewrite H in Hin. now left.
  - destruct H as [E | [l1 [t [l2 [E [Hid [Hnd [_ E']]]]]]]].
    + rewrite E in Hin. now left.
    + rewrite E' in Hin. apply in_app_or in Hin.
      destruct Hin as [Hin | [<- | Hin]].
      * left. rewrite E. apply in_or_app. now left.
      * right. left. exists tid, t. repeat split; try assumption.
        rewrite E. apply in_elt.
      * left. rewrite E. apply in_or_app. right. now right.
  - rewrite H in Hin. apply filter_In in Hin. left. tauto.
Qed.

End CommandEffects.

Section CommandTraces.
Context {lib : PyLib}.

(** X5: when [_load] returns the empty sequence (no file, a text that does
    not parse, a value that is not a list), [add] overwrites the file with
    a one-task list whose id is 1, while [list], [done] and [delete] print
    their no-tasks or not-found line and write nothing. *)
Theorem commands_on_empty_store (w : world) :
  store w = [] ->
  (forall arg_title,
     let new_task := mkTask 1 (strip arg_title) "open" (clock w) None in
     exec (cmd_add arg_title) w = saved_world [new_task] (msg_added new_task) w)
  /\ (forall arg_all arg_done,
        exec (cmd_list arg_all arg_done) w = exec (print msg_no_tasks) w)
  /\ (forall k, exec (cmd_done k) w = exec (print (msg_not_found k)) w)
  /\ (forall k, exec (cmd_delete k) w = exec (print (msg_not_found k)) w).
Proof.
  intros Hempty. split; [| split; [| split]].
  - intros arg_title. rewrite cmd_add_run. cbv zeta. now rewrite Hempty.
  - intros arg_all arg_done. rewrite cmd_list_run, Hempty.
    destruct arg_all, arg_done; reflexivity.
  - intros k. rewrite cmd_done_run, Hempty. reflexivity.
  - intros k. apply cmd_delete_absent. rewrite Hempty. intros t [].
Qed.

Lemma existsb_id_false (k : Z) (l : list task) :
  (forall t, In t l -> id t <> k) -> existsb (fun t => id t =? k) l = false.
Proof.
  intros Hno. destruct (existsb _ l) eqn:E; [| reflexivity].
  apply existsb_exists in E. destruct E as [t [Hin Ht]].
  apply Z.eqb_eq in Ht. exfalso. now apply (Hno t).
Qed.

Lemma existsb_id_true (k : Z) (l : list task) (t : task) :
  In t l -> id t = k -> existsb (fun t => id t =? k) l = true.
Proof.
  intros Hin Ht. apply existsb_exists. exists t. split; [exact Hin |].
  now apply Z.eqb_eq.
Qed.

(** X6: a run only appends to the standard output.  [add] prints its one
    confirmation line with the id it assigned; [list] prints one line per
    task of the view, or the no-tasks line; [done] prints exactly one of
    its three lines; [delete] prints the deleted line when some task had
    the id and the not-found line otherwise. *)
Theorem commands_print (now : string) (args : command) (w : world) :
  let out := stdout (invoke now args w) in
  match args with
  | Add arg_title =>
      out = stdout w
            ++ [msg_added (mkTask (_next_id (store w)) (strip arg_title)
                                  "open" now None)]
  | List arg_all arg_done =>
      out = stdout w ++ render (list_view arg_all arg_done (store w))
  | Done tid =>
      exists line,
        out = stdout w ++ [line]
        /\ (line = msg_already_done tid
            \/ line = msg_not_found tid
            \/ exists t, In t (store w) /\ id t = tid /\ line = msg_completed tid t)
  | Delete k =>
      out = stdout w
            ++ [if existsb (fun t => id t =? k) (store w)
                then msg_deleted k else msg_not_found k]
  end.
Proof.
  cbv zeta. rewrite invoke_run.
  set (v := set_clock now w).
  assert (Ev : store w = store v) by now apply store_file.
  assert (Eo : stdout w = stdout v) by reflexivity.
  assert (Ec : clock v = now) by reflexivity.
  rewrite Ev, Eo. clearbody v. clear Ev Eo.
  destruct args as [arg_title | arg_all arg_done | tid | k]; simpl func.
  - rewrite cmd_add_run. cbv zeta. now rewrite Ec.
  - now rewrite cmd_list_run.
  - destruct (cmd_done_cases tid v)
      as [[_ Hrun] | [l1 [t [l2 [E [Hid [_ [[_ Hrun] | [_ Hrun]]]]]]]]];
      rewrite Hrun; eexists; (split; [reflexivity |]); auto.
    right. right. exists t. split; [rewrite E; apply in_elt | now split].
  - destruct (first_with_id k (store v)) as [Hno | [l1 [t [l2 [E [Hid _]]]]]].
    + now rewrite (cmd_delete_absent k v Hno), (existsb_id_false k _ Hno).
    + assert (Hin : In t (store v)) by (rewrite E; apply in_elt).
      now rewrite (cmd_delete_present k v t Hin Hid), (existsb_id_true k _ t Hin Hid).
Qed.

(** X7: a run ends with the clock it ran at and writes the file at most
    once, always as a complete overwrite with the dump of a task list:
    [add] writes a list one longer than the store, [list] never writes,
    [done] writes a list of the same length or nothing, [delete] writes a
    shorter list or nothing. *)
Theorem commands_write_at_most_once (now : string) (args : command) (w : world) :
  let w' := invoke now args w in
  let wrote (l : list task) :=
    file w' = Some (json_dumps l) /\ saved w' = saved w ++ [json_dumps l] in
  let wrote_nothing := file w' = file w /\ saved w' = saved w in
  clock w' = now
  /\ match args with
     | Add _ =>
         exists l, wrote l /\ List.length l = S (List.length (store w))
     | List _ _ => wrote_nothing
     | Done _ =>
         wrote_nothing
         \/ exists l, wrote l /\ List.length l = List.length (store w)
     | Delete _ =>
         wrote_nothing
         \/ exists l, wrote l /\ (List.length l < List.length (store w))%nat
     end.
Proof.
  cbv zeta. rewrite invoke_run.
  set (v := set_clock now w).
  assert (Ev : store w = store v) by now apply store_file.
  assert (Ef : file w = file v) by reflexivity.
  assert (Es : saved w = saved v) by reflexivity.
  assert (Ec : clock v = now) by reflexivity.
  rewrite Ev, Ef, Es, <- Ec. clearbody v. clear Ev Ef Es Ec.
  destruct args as [arg_title | arg_all arg_done | tid | k]; simpl func.
  - rewrite cmd_add_run. cbv zeta. split; [reflexivity |].
    eexists. split; [split; reflexivity |].
    rewrite length_app. simpl. lia.
  - rewrite cmd_list_run. now repeat split.
  - destruct (cmd_done_cases tid v)
      as [[_ Hrun] | [l1 [t [l2 [E [_ [_ [[_ Hrun] | [_ Hrun]]]]]]]]];
      rewrite Hrun; (split; [reflexivity |]).
    + left. now split.
    + left. now split.
    + right. eexists. split; [split; reflexivity |].
      rewrite E, !length_app. reflexivity.
  - destruct (first_with_id k (store v)) as [Hno | [l1 [t [l2 [E [Hid _]]]]]].
    + rewrite (cmd_delete_absent k v Hno). split; [reflexivity |]. left. now split.
    + assert (Hin : In t (store v)) by (rewrite E; apply in_elt).
      rewrite (cmd_delete_present k v t Hin Hid). split; [reflexivity |].
      right. eexists. split; [split; reflexivity |].
      apply (filter_shorter (keep k) (store v) t Hin).
      now apply keep_false.
Qed.

End CommandTraces.

(** X9: the next id depends on the ids present only, not on the order of
    the tasks. *)
Theorem next_id_permutation (l l' : list task) :
  Permutation l l' -> _next_id l = _next_id l'.
Proof.
  intros HP. destruct l as [| t l].
  - apply Permutation_nil in HP. now subst.
  - unfold _next_id. f_equal. symmetry. apply max_default_eq.
    destruct (max_default_is_max (id t) (map id l) 0) as [Hin Hub].
    change (id t :: map id l) with (map id (t :: l)) in *.
    pose proof (Permutation_map id HP) as HPm. split.
    + now apply (Permutation_in _ HPm).
    + intros x Hx. apply Hub. now apply (Permutation_in _ (Permutation_sym HPm)).
Qed.

(** ** The further properties on the reference library *)

Lemma fresh_well_formed : well_formed (store fresh).
Proof. repeat split; constructor. Qed.

Lemma run_keeps_well_formed_witness :
  json_roundtrip (lib := ref_lib)
  /\ well_formed (store fresh)
  /\ well_formed (store (run scenario4 fresh)).
Proof.
  split; [exact ref_lib_roundtrip |]. split; [exact fresh_well_formed |].
  exact (run_keeps_well_formed ref_lib_roundtrip scenario4 fresh fresh_well_formed).
Defined.

Lemma commands_keep_ids_unique_witness :
  json_roundtrip (lib := ref_lib)
  /\ unique_ids (store sample_world)
  /\ unique_ids (store (invoke "2024-05-05T00:00:00" (Add " Walk dog ") sample_world)).
Proof.
  split; [exact ref_lib_roundtrip |]. split; [exact sample_unique_ids |].
  exact (commands_keep_ids_unique ref_lib_roundtrip "2024-05-05T00:00:00"
           (Add " Walk dog ") sample_world sample_unique_ids).
Defined.

Lemma add_then_delete_restores_witness :
  json_roundtrip (lib := ref_lib)
  /\ store (invoke "2024-05-06T00:00:00" (Delete (_next_id (store sample_world)))
              (invoke "2024-05-05T00:00:00" (Add "Walk dog") sample_world))
     = store sample_world.
Proof.
  split; [exact ref_lib_roundtrip |].
  exact (add_then_delete_restores ref_lib_roundtrip sample_world "Walk dog"
           "2024-05-05T00:00:00" "2024-05-06T00:00:00").
Defined.

Lemma deleted_id_is_gone_witness :
  json_roundtrip (lib := ref_lib)
  /\ invoke "2024-05-06T00:00:00" (Done 2)
       (invoke "2024-05-05T00:00:00" (Delete 2) sample_world)
     = exec (print (msg_not_found 2))
         (set_clock "2024-05-06T00:00:00"
            (invoke "2024-05-05T00:00:00" (Delete 2) sample_world)).
Proof.
  split; [exact ref_lib_roundtrip |].
  exact (proj2 (deleted_id_is_gone ref_lib_roundtrip sample_world 2
                  "2024-05-05T00:00:00" "2024-05-06T00:00:00")).
Defined.

Lemma commands_on_empty_store_witness :
  store unreadable_world = []
  /\ exec (cmd_delete 1) unreadable_world
     = exec (print (msg_not_found 1)) unreadable_world.
Proof.
  assert (H : store unreadable_world = []) by (vm_compute; reflexivity).
  split; [exact H |].
  exact (proj2 (proj2 (proj2 (commands_on_empty_store unreadable_world H))) 1).
Defined.

Lemma adds_assign_consecutive_ids_witness :
  json_roundtrip (lib := ref_lib)
  /\ Forall is_add three_adds
  /\ assigned_ids three_adds sample_world
     = count_from (_next_id (store sample_world)) three_adds.
Proof.
  assert (H : Forall is_add three_adds) by (repeat constructor).
  split; [exact ref_lib_roundtrip |]. split; [exact H |].
  exact (adds_assign_consecutive_ids ref_lib_roundtrip three_adds sample_world H).
Defined.

Lemma next_id_permutation_witness :
  Permutation [mkTask 7 "a" "open" "t" None; mkTask 3 "b" "open" "t" None]
              [mkTask 3 "b" "open" "t" None; mkTask 7 "a" "open" "t" None]
  /\ _next_id [mkTask 7 "a" "open" "t" None; mkTask 3 "b" "open" "t" None]
     = _next_id [mkTask 3 "b" "open" "t" None; mkTask 7 "a" "open" "t" None].
Proof.
  assert (H : Permutation [mkTask 7 "a" "open" "t" None; mkTask 3 "b" "open" "t" None]
                          [mkTask 3 "b" "open" "t" None; mkTask 7 "a" "open" "t" None])
    by apply perm_swap.
  split; [exact H |]. exact (next_id_permutation _ _ H).
Defined.

Lemma done_touches_one_task_witness :
  json_roundtrip (lib := ref_lib)
  /\ map title (store (invoke "2024-05-05T00:00:00" (Done 2) sample_world))
     = map title (store sample_world).
Proof.
  split; [exact ref_lib_roundtrip |].
  exact (proj1 (proj2 (done_touches_one_task ref_lib_roundtrip sample_world 2
                         "2024-05-05T00:00:00"))).
Defined.

Lemma second_done_says_already_done_witness :
  json_roundtrip (lib := ref_lib)
  /\ (exists t, In t (store sample_world) /\ id t = 2)
  /\ stdout (invoke "2024-05-06T00:00:00" (Done 2)
               (invoke "2024-05-05T00:00:00" (Done 2) sample_world))
     = stdout (invoke "2024-05-05T00:00:00" (Done 2) sample_world)
       ++ [msg_already_done 2].
Proof.
  assert (H : exists t, In t (store sample_world) /\ id t = 2).
  { exists (mkTask 2 "Call Ann" "open" "2024-05-01T10:05:00" None).
    split; [vm_compute; right; now left | reflexivity]. }
  split; [exact ref_lib_roundtrip |]. split; [exact H |].
  exact (second_done_says_already_done ref_lib_roundtrip sample_world 2
           "2024-05-05T00:00:00" "2024-05-06T00:00:00" H).
Defined.

Lemma add_then_done_completes_witness :
  json_roundtrip (lib := ref_lib)
  /\ store (invoke "2024-05-06T00:00:00" (Done (_next_id (store sample_world)))
              (invoke "2024-05-05T00:00:00" (Add "Walk dog") sample_world))
     = store sample_world
       ++ [mkTask (_next_id (store sample_world)) (strip "Walk dog") "done"
                  "2024-05-05T00:00:00" (Some "2024-05-06T00:00:00")].
Proof.
  split; [exact ref_lib_roundtrip |].
  exact (add_then_done_completes ref_lib_roundtrip sample_world "Walk dog"
           "2024-05-05T00:00:00" "2024-05-06T00:00:00").
Defined.

Lemma task_provenance_witness :
  json_roundtrip (lib := ref_lib)
  /\ In (mkTask 3 "Pay rent" "open" "2024-05-03T08:00:00" None)
        (store (invoke "2024-05-05T00:00:00" (Delete 2) sample_world))
  /\ (In (mkTask 3 "Pay rent" "open" "2024-05-03T08:00:00" None) (store sample_world)
      \/ (exists tid t,
            Delete 2 = Done tid /\ In t (store sample_world) /\ id t = tid
            /\ status t <> "done"%string
            /\ mkTask 3 "Pay rent" "open" "2024-05-03T08:00:00" None
               = mkTask (id t) (title t) "done" (created_at t)
                        (Some "2024-05-05T00:00:00"))
      \/ (exists arg_title,
            Delete 2 = Add arg_title
            /\ mkTask 3 "Pay rent" "open" "2024-05-03T08:00:00" None
               = mkTask (_next_id (store sample_world)) (strip arg_title) "open"
                        "2024-05-05T00:00:00" None)).
Proof.
  assert (H : In (mkTask 3 "Pay rent" "open" "2024-05-03T08:00:00" None)
                 (store (invoke "2024-05-05T00:00:00" (Delete 2) sample_world)))
    by (vm_compute; right; now left).
  split; [exact ref_lib_roundtrip |]. split; [exact H |].
  exact (task_provenance ref_lib_roundtrip "2024-05-05T00:00:00" (Delete 2)
           sample_world _ H).
Defined.
